(** * HibiscusIM: the WebSocket hub (pkg/websocket)

    A shallow embedding of [websocket.go] and [connection.go] (which also holds
    the configuration helpers), and theorems about registration, routing,
    backpressure, heartbeats, group membership and the wire format.

    Conventions of the embedding.
    - Go [int], [int64] and [time.Duration] are [Z]; a duration counts
      nanoseconds. Where the code does arithmetic on a counter the 64-bit
      wrap-around is written out ([wrap64]).
    - A [*Connection] is an address [ptr] into a store [heap]; the hub's maps
      hold addresses, so that two map entries may alias one object.
    - A Go [map[string]T] is a [gmap string T]. A [for ... range] over a map
      is a fold over [map_to_list]; Go leaves the order open, and no theorem
      below depends on it.
    - A channel is a buffer with a capacity and a closed flag. Sending on a
      closed channel and closing a closed channel panic, as in Go. The direct
      hand-over of a value to a receiver that is already waiting is not
      modelled: a buffer at its capacity counts as full.
    - Code that may panic or park its goroutine returns an [outcome].
    - [time.Now()] reads the field [now] of the world; waiting advances it.
    - [logrus] calls append to the field [log] of the world. *)

From Stdlib Require Import ZArith Lia Ascii String.
From stdpp Require Import gmap strings list fin_maps sorting pretty.

Set Warnings "-register-all".
Set Default Proof Using "Type".
Open Scope string_scope.
Open Scope list_scope.
Open Scope Z_scope.

(** ** Outcomes of Go code *)

Inductive outcome (A : Type) : Type :=
  | Done (a : A)      (* the call returned *)
  | Panics            (* a run-time panic *)
  | Blocks.           (* the goroutine is parked on a channel *)
Arguments Done {A} a.
Arguments Panics {A}.
Arguments Blocks {A}.

#[global] Instance outcome_ret : MRet outcome := @Done.
#[global] Instance outcome_bind : MBind outcome := λ A B f m,
  match m with
  | Done a => f a
  | Panics => Panics
  | Blocks => Blocks
  end.

Definition of_option {A} (o : option A) : outcome A :=
  match o with
  | Some a => Done a
  | None => Panics
  end.

(** A [for] loop whose body may panic. *)
Fixpoint for_each {A S : Type} (body : A → S → outcome S) (l : list A) (s : S)
  : outcome S :=
  match l with
  | [] => Done s
  | x :: l' => s' ← body x s; for_each body l' s'
  end.

(** The keys a [range] over a map visits. *)
Definition range {V} (m : gmap string V) : list string := (map_to_list m).*1.

(** ** Integers and time *)

Definition wrap64 (z : Z) : Z := (z + 2 ^ 63) mod 2 ^ 64 - 2 ^ 63.
Definition int64 (z : Z) : Prop := - 2 ^ 63 ≤ z < 2 ^ 63.
Definition is_int64 (z : Z) : bool := (- 2 ^ 63 <=? z) && (z <? 2 ^ 63).

Definition Millisecond : Z := 1000000.
Definition Second : Z := 1000000000.

(** [time.Time.Sub]: the difference, saturated to the range of a Duration. *)
Definition Time_Sub (t u : Z) : Z :=
  Z.max (- 2 ^ 63) (Z.min (2 ^ 63 - 1) (t - u)).

(** [time.Time.Unix]: whole seconds. *)
Definition Time_Unix (t : Z) : Z := t / Second.

(** ** Channels *)

Module Chan.
Record t (A : Type) : Type := Make {
  buf : list A;
  cap : Z;
  closed : bool
}.
Arguments Make {A} buf cap closed.
Arguments buf {A} _.
Arguments cap {A} _.
Arguments closed {A} _.

(** [make(chan A, n)] panics on a negative size. *)
Definition make {A} (n : Z) : outcome (t A) :=
  if n <? 0 then Panics else Done (Make [] n false).

Definition full {A} (c : t A) : bool := cap c <=? Z.of_nat (length (buf c)).

Definition push {A} (c : t A) (x : A) : t A :=
  Make (buf c ++ [x]) (cap c) (closed c).

(** [select { case c <- x: ... default: ... }]: [Done (Some c')] when the
    value was buffered, [Done None] when the default branch was taken. *)
Definition try_send {A} (c : t A) (x : A) : outcome (option (t A)) :=
  if closed c then Panics
  else if full c then Done None
  else Done (Some (push c x)).

(** [c <- x]: the sender parks while the buffer is full. *)
Definition send {A} (c : t A) (x : A) : outcome (t A) :=
  if closed c then Panics
  else if full c then Blocks
  else Done (push c x).

(** What the receiving side does while a sender is parked on a full buffer:
    [Some (d, k)] says that after [d] nanoseconds the receiver has taken the
    first [k + 1] values; [None] says it takes nothing. *)
Definition receiver : Type := option (Z * nat).

(** [select { case c <- x: ... case <-time.After(timeout): ... }]: the
    channel after the send ([None] when the timer fired first) and the time
    spent waiting. *)
Definition send_within {A} (r : receiver) (timeout : Z) (c : t A) (x : A)
  : outcome (option (t A) * Z) :=
  if closed c then Panics
  else if full c then
    match r with
    | Some (d, k) =>
        if (0 <=? d) && (d <? timeout)
        then Done (Some (Make (drop (S k) (buf c) ++ [x]) (cap c) false), d)
        else Done (None, timeout)
    | None => Done (None, timeout)
    end
  else Done (Some (push c x), 0).

(** [close(c)] *)
Definition close {A} (c : t A) : outcome (t A) :=
  if closed c then Panics else Done (Make (buf c) (cap c) true).
End Chan.

(** ** UTF-8, as far as [encoding/json] looks at it

    The encoder walks a string with [utf8.DecodeRuneInString] and writes
    U+FFFD for every byte that starts no well-formed encoding. *)

Module Utf8.
Definition byte (a : ascii) : Z := Z.of_N (N_of_ascii a).
Definition within (lo hi : Z) (a : ascii) : bool :=
  (lo <=? byte a) && (byte a <=? hi).
Definition cont : ascii → bool := within 128 191.

(** The range of the second byte, which depends on the first. *)
Definition second (a0 a1 : ascii) : bool :=
  if byte a0 =? 224 then within 160 191 a1
  else if byte a0 =? 237 then within 128 159 a1
  else if byte a0 =? 240 then within 144 191 a1
  else if byte a0 =? 244 then within 128 143 a1
  else cont a1.

(** The width of the encoding at the head of [l]; [0] where
    [DecodeRuneInString] answers [(RuneError, 1)]. *)
Definition width (l : list ascii) : nat :=
  match l with
  | [] => 0%nat
  | a0 :: t =>
      if byte a0 <? 128 then 1%nat
      else if within 194 223 a0 then
        match t with
        | a1 :: _ => if cont a1 then 2%nat else 0%nat
        | _ => 0%nat
        end
      else if within 224 239 a0 then
        match t with
        | a1 :: a2 :: _ => if second a0 a1 && cont a2 then 3%nat else 0%nat
        | _ => 0%nat
        end
      else if within 240 244 a0 then
        match t with
        | a1 :: a2 :: a3 :: _ =>
            if second a0 a1 && cont a2 && cont a3 then 4%nat else 0%nat
        | _ => 0%nat
        end
      else 0%nat
  end.

(** U+FFFD *)
Definition replacement : list ascii := ["239"; "191"; "189"]%char.

Fixpoint coerce_go (fuel : nat) (l : list ascii) : list ascii :=
  match fuel, l with
  | S fuel', _ :: t =>
      match width l with
      | O => replacement ++ coerce_go fuel' t
      | n => take n l ++ coerce_go fuel' (drop n l)
      end
  | _, _ => []
  end.

Fixpoint valid_go (fuel : nat) (l : list ascii) : bool :=
  match fuel, l with
  | _, [] => true
  | S fuel', _ :: _ =>
      match width l with
      | O => false
      | n => valid_go fuel' (drop n l)
      end
  | O, _ :: _ => false
  end.

(** What the encoder writes for the string [s]. *)
Definition coerce (s : string) : string :=
  let l := list_ascii_of_string s in
  string_of_list_ascii (coerce_go (length l) l).

(** [utf8.ValidString] *)
Definition ValidString (s : string) : bool :=
  let l := list_ascii_of_string s in valid_go (length l) l.
End Utf8.

(** ** Values behind [interface{}] and JSON documents

    A payload on the wire is represented by the JSON document it spells; the
    lexical layer of [encoding/json] (quoting, escapes, white space) is not
    modelled. A number is kept as its literal, and a [float64] is named by the
    literal the encoder prints for it, so that no floating-point arithmetic is
    involved; literals beyond the range of a [float64], which the decoder
    rejects, are not told apart. The rules below are those of the package
    documentation of [encoding/json]. *)

Inductive number : Type :=
  | NumInt (z : Z)         (* an integer literal *)
  | NumText (s : string).  (* a literal with a fraction or an exponent *)

Inductive json : Type :=
  | JNull
  | JBool (b : bool)
  | JNumber (n : number)
  | JString (s : string)
  | JArray (l : list json)
  | JObject (l : list (string * json)).

(** The dynamic values a [Data interface{}] holds: the six kinds the decoder
    produces, and two kinds it never produces. *)
Inductive any : Type :=
  | ANil
  | ABool (b : bool)
  | AFloat64 (x : number)
  | AString (s : string)
  | ASlice (l : list any)            (* []interface{}, not nil *)
  | AMap (m : gmap string any)       (* map[string]interface{}, not nil *)
  | AInt (z : Z)                     (* a Go int *)
  | AFunc.                           (* a func value: not encodable *)

#[global] Instance number_eq_dec : EqDecision number.
Proof. solve_decision. Defined.

Module Json.
Definition key_le {B} (x y : string * B) : Prop :=
  Is_true (String.leb x.1 y.1).
#[global] Instance key_le_dec {B} (x y : string * B) : Decision (key_le x y).
Proof. unfold key_le. apply _. Defined.

(** The members of an encoded map: keys in byte order. *)
Definition members (m : gmap string (option json)) : option (list (string * json)) :=
  mapM (λ kv : string * option json, v ← kv.2; Some (Utf8.coerce kv.1, v))
       (merge_sort key_le (map_to_list m)).

(** The encoder on a dynamic value; [None] is an [UnsupportedTypeError]. *)
Fixpoint encode (a : any) : option json :=
  match a with
  | ANil => Some JNull
  | ABool b => Some (JBool b)
  | AFloat64 x => Some (JNumber x)
  | AString s => Some (JString (Utf8.coerce s))
  | ASlice l => JArray <$> mapM id (encode <$> l)
  | AMap m => JObject <$> members (encode <$> m)
  | AInt z => Some (JNumber (NumInt z))
  | AFunc => None
  end.

(** A later member overrides an earlier one with the same key. *)
Definition object_map {B} (l : list (string * B)) : gmap string B :=
  list_to_map (reverse l).

(** The decoder into an [interface{}]. *)
Fixpoint decode (j : json) : any :=
  match j with
  | JNull => ANil
  | JBool b => ABool b
  | JNumber n => AFloat64 n
  | JString s => AString s
  | JArray l => ASlice (decode <$> l)
  | JObject l => AMap (object_map (prod_map id decode <$> l))
  end.

(** Field names are matched up to case: [foldName] in the decoder, whose
    only non-ASCII cases among letters are U+017F for s and U+212A for k. *)
Definition lower (a : ascii) : ascii :=
  if Utf8.within 65 90 a then ascii_of_N (N_of_ascii a + 32) else a.

Fixpoint foldName (s : string) : string :=
  match s with
  | String "197" (String "191" t) => String "s" (foldName t)
  | String "226" (String "132" (String "170" t)) => String "k" (foldName t)
  | String a t => String (lower a) (foldName t)
  | EmptyString => EmptyString
  end.
End Json.

(** ** Messages *)

Record Message : Type := mkMessage {
  Type_ : string;        (* json:"type" *)
  Data : any;            (* json:"data" *)
  Timestamp : Z;         (* json:"timestamp" *)
  From : string;         (* json:"from,omitempty" *)
  To : string;           (* json:"to,omitempty" *)
  Group : string         (* json:"group,omitempty" *)
}.

Definition Message_zero : Message := mkMessage "" ANil 0 "" "" "".

Definition with_From (s : string) (m : Message) : Message :=
  mkMessage (Type_ m) (Data m) (Timestamp m) s (To m) (Group m).
Definition with_Timestamp (z : Z) (m : Message) : Message :=
  mkMessage (Type_ m) (Data m) z (From m) (To m) (Group m).

Module MessageJson.
Inductive field : Type := FType | FData | FTimestamp | FFrom | FTo | FGroup.

#[global] Instance field_eq_dec : EqDecision field.
Proof. solve_decision. Defined.

Definition field_of_key (k : string) : option field :=
  let f := Json.foldName k in
  if decide (f = "type") then Some FType
  else if decide (f = "data") then Some FData
  else if decide (f = "timestamp") then Some FTimestamp
  else if decide (f = "from") then Some FFrom
  else if decide (f = "to") then Some FTo
  else if decide (f = "group") then Some FGroup
  else None.

(** Storing one member; [None] is an [UnmarshalTypeError]. A [null] leaves a
    string or an integer as it is and sets an interface to nil. *)
Definition set_field (f : field) (v : json) (m : Message) : option Message :=
  match f, v with
  | FData, _ =>
      Some (mkMessage (Type_ m) (Json.decode v) (Timestamp m) (From m) (To m) (Group m))
  | _, JNull => Some m
  | FType, JString s =>
      Some (mkMessage s (Data m) (Timestamp m) (From m) (To m) (Group m))
  | FTimestamp, JNumber (NumInt z) =>
      if is_int64 z then Some (with_Timestamp z m) else None
  | FFrom, JString s => Some (with_From s m)
  | FTo, JString s =>
      Some (mkMessage (Type_ m) (Data m) (Timestamp m) (From m) s (Group m))
  | FGroup, JString s =>
      Some (mkMessage (Type_ m) (Data m) (Timestamp m) (From m) (To m) s)
  | _, _ => None
  end.

Definition set_member (acc : option Message) (kv : string * json) : option Message :=
  m ← acc;
  match field_of_key kv.1 with
  | Some f => set_field f kv.2 m
  | None => Some m
  end.

(** [json.Unmarshal(data, &msg)] on a fresh [msg]; [None] is an error. *)
Definition Unmarshal (j : json) : option Message :=
  match j with
  | JNull => Some Message_zero
  | JObject l => foldl set_member (Some Message_zero) l
  | _ => None
  end.

Definition omitempty (k s : string) : list (string * json) :=
  if decide (s = "") then [] else [(k, JString (Utf8.coerce s))].

(** [json.Marshal(message)]; [None] is an error. *)
Definition Marshal (m : Message) : option json :=
  d ← Json.encode (Data m);
  Some (JObject ([("type", JString (Utf8.coerce (Type_ m)));
                  ("data", d);
                  ("timestamp", JNumber (NumInt (Timestamp m)))]
                 ++ omitempty "from" (From m)
                 ++ omitempty "to" (To m)
                 ++ omitempty "group" (Group m))).
End MessageJson.

(** ** Configuration *)

Record Config : Type := mkConfig {
  MaxConnections : Z;
  HeartbeatInterval : Z;
  ConnectionTimeout : Z;
  MessageBufferSize : Z;
  ReadBufferSize : Z;
  WriteBufferSize : Z;
  MaxMessageSize : Z;
  EnableCompression : bool;
  EnableMessageQueue : bool;
  MessageQueueSize : Z;
  EnableCluster : bool;
  ClusterNodeID : string;
  ShardCount : Z;
  BroadcastWorkerCount : Z;
  DropOnFull : bool;
  CompressionLevel : Z;
  CloseOnBackpressure : bool;
  SendTimeout : Z;
  EnableGlobalPing : bool;
  PingWorkerCount : Z
}.

Definition DefaultConfig : Config := {|
  MaxConnections := 100000;
  HeartbeatInterval := 30 * Second;
  ConnectionTimeout := 60 * Second;
  MessageBufferSize := 256;
  ReadBufferSize := 1024;
  WriteBufferSize := 1024;
  MaxMessageSize := 512;
  EnableCompression := true;
  EnableMessageQueue := true;
  MessageQueueSize := 1000;
  EnableCluster := false;
  ClusterNodeID := "";
  ShardCount := 16;
  BroadcastWorkerCount := 32;
  DropOnFull := true;
  CompressionLevel := -2;
  CloseOnBackpressure := false;
  SendTimeout := 50 * Millisecond;
  EnableGlobalPing := false;
  PingWorkerCount := 8
|}.

Definition with_ShardCount (n : Z) (c : Config) : Config :=
  mkConfig (MaxConnections c) (HeartbeatInterval c) (ConnectionTimeout c)
    (MessageBufferSize c) (ReadBufferSize c) (WriteBufferSize c) (MaxMessageSize c)
    (EnableCompression c) (EnableMessageQueue c) (MessageQueueSize c)
    (EnableCluster c) (ClusterNodeID c) n (BroadcastWorkerCount c)
    (DropOnFull c) (CompressionLevel c) (CloseOnBackpressure c) (SendTimeout c)
    (EnableGlobalPing c) (PingWorkerCount c).
Definition with_BroadcastWorkerCount (n : Z) (c : Config) : Config :=
  mkConfig (MaxConnections c) (HeartbeatInterval c) (ConnectionTimeout c)
    (MessageBufferSize c) (ReadBufferSize c) (WriteBufferSize c) (MaxMessageSize c)
    (EnableCompression c) (EnableMessageQueue c) (MessageQueueSize c)
    (EnableCluster c) (ClusterNodeID c) (ShardCount c) n
    (DropOnFull c) (CompressionLevel c) (CloseOnBackpressure c) (SendTimeout c)
    (EnableGlobalPing c) (PingWorkerCount c).
Definition with_PingWorkerCount (n : Z) (c : Config) : Config :=
  mkConfig (MaxConnections c) (HeartbeatInterval c) (ConnectionTimeout c)
    (MessageBufferSize c) (ReadBufferSize c) (WriteBufferSize c) (MaxMessageSize c)
    (EnableCompression c) (EnableMessageQueue c) (MessageQueueSize c)
    (EnableCluster c) (ClusterNodeID c) (ShardCount c) (BroadcastWorkerCount c)
    (DropOnFull c) (CompressionLevel c) (CloseOnBackpressure c) (SendTimeout c)
    (EnableGlobalPing c) n.

(** The errors of [ValidateConfig], one per [fmt.Errorf]. *)
Inductive config_error : Type :=
  | ErrNil
  | ErrMaxConnections
  | ErrHeartbeatInterval
  | ErrConnectionTimeout
  | ErrMessageBufferSize
  | ErrMessageQueueSize
  | ErrShardCount
  | ErrBroadcastWorkerCount
  | ErrCompressionLevel
  | ErrBufferSizes
  | ErrMaxMessageSize
  | ErrHeartbeatNotBelowTimeout
  | ErrBackpressureWithoutTimeout
  | ErrGlobalPingWithoutWorkers.

(** [ValidateConfig(config)]; [None] is the nil error. *)
Definition ValidateConfig (config : option Config) : option config_error :=
  match config with
  | None => Some ErrNil
  | Some config =>
      if MaxConnections config <=? 0 then Some ErrMaxConnections
      else if HeartbeatInterval config <=? 0 then Some ErrHeartbeatInterval
      else if ConnectionTimeout config <=? 0 then Some ErrConnectionTimeout
      else if MessageBufferSize config <=? 0 then Some ErrMessageBufferSize
      else if MessageQueueSize config <=? 0 then Some ErrMessageQueueSize
      else if ShardCount config <=? 0 then Some ErrShardCount
      else if BroadcastWorkerCount config <=? 0 then Some ErrBroadcastWorkerCount
      else if (CompressionLevel config <? -2) || (9 <? CompressionLevel config)
        then Some ErrCompressionLevel
      else if (ReadBufferSize config <=? 0) || (WriteBufferSize config <=? 0)
        then Some ErrBufferSizes
      else if MaxMessageSize config <=? 0 then Some ErrMaxMessageSize
      else if ConnectionTimeout config <=? HeartbeatInterval config
        then Some ErrHeartbeatNotBelowTimeout
      else if CloseOnBackpressure config && (SendTimeout config <=? 0)
        then Some ErrBackpressureWithoutTimeout
      else if EnableGlobalPing config && (PingWorkerCount config <=? 0)
        then Some ErrGlobalPingWithoutWorkers
      else None
  end.

(** ** Connections, the hub and the world *)

Definition ptr : Type := nat.

(** Of the transport [*websocket.Conn] the model keeps whether [Close] was
    called; what is written to it is not recorded. *)
Record wsConn : Type := mkConn { ws_closed : bool }.

Record Connection : Type := mkConnection {
  ID : string;
  UserID : string;
  Conn : wsConn;
  Send : Chan.t json;
  LastPing : Z;
  IsAlive : bool;
  Groups : gmap string bool;
  Metadata : gmap string any
}.

Definition _broadcastAll : Z := 0.

Record broadcastJob : Type := mkJob {
  kind : Z;
  shard : Z;
  data : json
}.

Record Hub : Type := mkHub {
  connections : gmap string ptr;
  userConnections : gmap string (gmap string bool);
  groupConnections : gmap string (gmap string bool);
  broadcast : Chan.t Message;
  connectionCount : Z;
  config : Config;
  shardCount : Z;
  shardConns : list (gmap string ptr);
  broadcastJobs : Chan.t broadcastJob;
  pingJobs : option (Chan.t Z)        (* nil unless EnableGlobalPing *)
}.

(** One constructor per logging call of the package. *)
Inductive log_entry : Type :=
  | LogMaxConnections (max : Z)
  | LogRegistered (id user : string) (count : Z)
  | LogUnregistered (id : string) (count : Z)
  | LogMarshalFailed
  | LogUserBufferFull (user id : string)
  | LogGroupBufferFull (group id : string)
  | LogShardBufferFull (id : string)
  | LogBroadcastJobsFull
  | LogHeartbeatTimeout (id : string)
  | LogParseFailed
  | LogUnknownType (ty : string)
  | LogBufferFull (id : string)
  | LogInvalidGroup (d : any)
  | LogJoined (user group : string)
  | LogLeft (user group : string)
  | LogInvalidChat (d : any)
  | LogChatWithoutTarget
  | LogInvalidNotification (d : any).

Record World : Type := mkWorld {
  hub : Hub;
  heap : gmap ptr Connection;
  now : Z;
  log : list log_entry
}.

(** Field updates. *)

Definition with_Conn (x : wsConn) (c : Connection) : Connection :=
  mkConnection (ID c) (UserID c) x (Send c) (LastPing c) (IsAlive c) (Groups c) (Metadata c).
Definition with_Send (x : Chan.t json) (c : Connection) : Connection :=
  mkConnection (ID c) (UserID c) (Conn c) x (LastPing c) (IsAlive c) (Groups c) (Metadata c).
Definition with_LastPing (x : Z) (c : Connection) : Connection :=
  mkConnection (ID c) (UserID c) (Conn c) (Send c) x (IsAlive c) (Groups c) (Metadata c).
Definition with_IsAlive (x : bool) (c : Connection) : Connection :=
  mkConnection (ID c) (UserID c) (Conn c) (Send c) (LastPing c) x (Groups c) (Metadata c).
Definition with_Groups (x : gmap string bool) (c : Connection) : Connection :=
  mkConnection (ID c) (UserID c) (Conn c) (Send c) (LastPing c) (IsAlive c) x (Metadata c).
Definition with_Metadata (x : gmap string any) (c : Connection) : Connection :=
  mkConnection (ID c) (UserID c) (Conn c) (Send c) (LastPing c) (IsAlive c) (Groups c) x.

Definition with_connections (x : gmap string ptr) (h : Hub) : Hub :=
  mkHub x (userConnections h) (groupConnections h) (broadcast h) (connectionCount h)
    (config h) (shardCount h) (shardConns h) (broadcastJobs h) (pingJobs h).
Definition with_userConnections (x : gmap string (gmap string bool)) (h : Hub) : Hub :=
  mkHub (connections h) x (groupConnections h) (broadcast h) (connectionCount h)
    (config h) (shardCount h) (shardConns h) (broadcastJobs h) (pingJobs h).
Definition with_groupConnections (x : gmap string (gmap string bool)) (h : Hub) : Hub :=
  mkHub (connections h) (userConnections h) x (broadcast h) (connectionCount h)
    (config h) (shardCount h) (shardConns h) (broadcastJobs h) (pingJobs h).
Definition with_broadcast (x : Chan.t Message) (h : Hub) : Hub :=
  mkHub (connections h) (userConnections h) (groupConnections h) x (connectionCount h)
    (config h) (shardCount h) (shardConns h) (broadcastJobs h) (pingJobs h).
Definition with_connectionCount (x : Z) (h : Hub) : Hub :=
  mkHub (connections h) (userConnections h) (groupConnections h) (broadcast h) x
    (config h) (shardCount h) (shardConns h) (broadcastJobs h) (pingJobs h).
Definition with_shardConns (x : list (gmap string ptr)) (h : Hub) : Hub :=
  mkHub (connections h) (userConnections h) (groupConnections h) (broadcast h)
    (connectionCount h) (config h) (shardCount h) x (broadcastJobs h) (pingJobs h).
Definition with_broadcastJobs (x : Chan.t broadcastJob) (h : Hub) : Hub :=
  mkHub (connections h) (userConnections h) (groupConnections h) (broadcast h)
    (connectionCount h) (config h) (shardCount h) (shardConns h) x (pingJobs h).
Definition with_pingJobs (x : option (Chan.t Z)) (h : Hub) : Hub :=
  mkHub (connections h) (userConnections h) (groupConnections h) (broadcast h)
    (connectionCount h) (config h) (shardCount h) (shardConns h) (broadcastJobs h) x.

Definition with_hub (x : Hub) (w : World) : World := mkWorld x (heap w) (now w) (log w).
Definition with_heap (x : gmap ptr Connection) (w : World) : World :=
  mkWorld (hub w) x (now w) (log w).
Definition with_now (x : Z) (w : World) : World := mkWorld (hub w) (heap w) x (log w).

(** A [logrus] call. *)
Definition logf (e : log_entry) (w : World) : World :=
  mkWorld (hub w) (heap w) (now w) (log w ++ [e]).

(** Following a [*Connection]; a dangling or nil pointer panics. *)
Definition deref (w : World) (p : ptr) : outcome Connection := of_option (heap w !! p).

(** Writing through a [*Connection]. *)
Definition store (p : ptr) (c : Connection) (w : World) : World :=
  with_heap (<[p := c]> (heap w)) w.

(** [conn.Conn.Close()] *)
Definition Conn_Close (p : ptr) (w : World) : outcome World :=
  c ← deref w p; Done (store p (with_Conn (mkConn true) c) w).

(** ** The hub (websocket.go) *)

(** [NewHub(config)]. The two [make(chan ..., config.MessageQueueSize)] panic
    on a negative size; running out of memory on a huge one is not modelled.
    The goroutines it starts are the transitions below. *)
Definition NewHub (config : option Config) : outcome Hub :=
  let config := default DefaultConfig config in
  broadcast ← Chan.make (MessageQueueSize config);
  let config := if ShardCount config <=? 0 then with_ShardCount 1 config else config in
  let shardCount := ShardCount config in
  let shardConns := replicate (Z.to_nat shardCount) (∅ : gmap string ptr) in
  let config :=
    if BroadcastWorkerCount config <=? 0 then with_BroadcastWorkerCount 1 config
    else config in
  broadcastJobs ← Chan.make (MessageQueueSize config);
  let config :=
    if EnableGlobalPing config && (PingWorkerCount config <=? 0)
    then with_PingWorkerCount 1 config else config in
  pingJobs ← (if EnableGlobalPing config
              then ch ← Chan.make shardCount; Done (Some ch) else Done None);
  Done (mkHub ∅ ∅ ∅ broadcast 0 config shardCount shardConns broadcastJobs pingJobs).

(** The first statement of [run]: [time.NewTicker] panics on a period that is
    not positive. *)
Definition run_ticker (h : Hub) : outcome unit :=
  if HeartbeatInterval (config h) <=? 0 then Panics else Done ().

(** [hash/fnv]: 32-bit FNV-1a. *)
Definition fnv32a (id : string) : Z :=
  foldl (λ h a, (Z.lxor h (Utf8.byte a) * 16777619) mod 2 ^ 32)
        2166136261 (list_ascii_of_string id).

(** [shardIndex]; the conversion [uint32(h.shardCount)] may yield a zero
    divisor. *)
Definition shardIndex (h : Hub) (id : string) : outcome Z :=
  if shardCount h <=? 1 then Done 0
  else
    let n := shardCount h mod 2 ^ 32 in
    if n =? 0 then Panics else Done (fnv32a id mod n).

(** [h.shardConns[sh]], with its bounds check. *)
Definition shard_at (sh : Z) (l : list (gmap string ptr)) : outcome (gmap string ptr) :=
  if sh <? 0 then Panics else of_option (l !! Z.to_nat sh).

(** An update of the map [h.shardConns[sh]]. *)
Definition shard_update (f : gmap string ptr → gmap string ptr) (sh : Z)
    (l : list (gmap string ptr)) : outcome (list (gmap string ptr)) :=
  m ← shard_at sh l; Done (<[Z.to_nat sh := f m]> l).

(** [if idx[k] == nil { idx[k] = make(map[string]bool) }; idx[k][id] = true] *)
Definition index_add (k id : string) (idx : gmap string (gmap string bool))
  : gmap string (gmap string bool) :=
  <[k := <[id := true]> (default ∅ (idx !! k))]> idx.

(** [if idx[k] != nil { delete(idx[k], id);
                        if len(idx[k]) == 0 { delete(idx, k) } }] *)
Definition index_remove (k id : string) (idx : gmap string (gmap string bool))
  : gmap string (gmap string bool) :=
  match idx !! k with
  | Some m =>
      let m' := delete id m in
      if decide (size m' = 0%nat) then delete k idx else <[k := m']> idx
  | None => idx
  end.

(** [registerConnection] *)
Definition registerConnection (p : ptr) (w : World) : outcome World :=
  conn ← deref w p;
  let h := hub w in
  if MaxConnections (config h) <=? connectionCount h then
    w ← Conn_Close p w;
    Done (logf (LogMaxConnections (MaxConnections (config h))) w)
  else
    let count := wrap64 (connectionCount h + 1) in
    sh ← shardIndex h (ID conn);
    shards ← shard_update (<[ID conn := p]>) sh (shardConns h);
    let users :=
      if decide (UserID conn = "") then userConnections h
      else index_add (UserID conn) (ID conn) (userConnections h) in
    let groups :=
      foldl (λ idx group, index_add group (ID conn) idx)
            (groupConnections h) (range (Groups conn)) in
    let h := with_groupConnections groups
               (with_userConnections users
                 (with_shardConns shards
                   (with_connectionCount count
                     (with_connections (<[ID conn := p]> (connections h)) h)))) in
    Done (logf (LogRegistered (ID conn) (UserID conn) count) (with_hub h w)).

(** [unregisterConnection] *)
Definition unregisterConnection (p : ptr) (w : World) : outcome World :=
  conn ← deref w p;
  let h := hub w in
  match connections h !! ID conn with
  | None => Done w
  | Some _ =>
      let count := wrap64 (connectionCount h - 1) in
      sh ← shardIndex h (ID conn);
      shards ← shard_update (delete (ID conn)) sh (shardConns h);
      let users :=
        if decide (UserID conn = "") then userConnections h
        else index_remove (UserID conn) (ID conn) (userConnections h) in
      let groups :=
        foldl (λ idx group, index_remove group (ID conn) idx)
              (groupConnections h) (range (Groups conn)) in
      let h := with_groupConnections groups
                 (with_userConnections users
                   (with_shardConns shards
                     (with_connectionCount count
                       (with_connections (delete (ID conn) (connections h)) h)))) in
      send ← Chan.close (Send conn);
      Done (logf (LogUnregistered (ID conn) count)
              (store p (with_Send send conn) (with_hub h w)))
  end.

(** The receivers of the outbound queues: what each connection's writer does
    while a sender waits on its queue. *)
Definition writers : Type := ptr → Chan.receiver.

(** [trySend] *)
Definition trySend (E : writers) (p : ptr) (data : json) (onDrop : World → World)
    (w : World) : outcome World :=
  conn ← deref w p;
  let dropped (w : World) : outcome World :=
    let w := onDrop w in
    if CloseOnBackpressure (config (hub w)) then Conn_Close p w else Done w in
  if DropOnFull (config (hub w)) then
    r ← Chan.try_send (Send conn) data;
    match r with
    | Some ch => Done (store p (with_Send ch conn) w)
    | None => dropped w
    end
  else
    let timeout :=
      if SendTimeout (config (hub w)) <=? 0 then 50 * Millisecond
      else SendTimeout (config (hub w)) in
    r ← Chan.send_within (E p) timeout (Send conn) data;
    let w := with_now (now w + r.2) w in
    match r.1 with
    | Some ch => Done (store p (with_Send ch conn) w)
    | None => dropped w
    end.

(** The body shared by the loops of [sendToUser] and [sendToGroup]. *)
Definition send_if_alive (E : writers) (data : json) (entry : string → log_entry)
    (connID : string) (w : World) : outcome World :=
  match connections (hub w) !! connID with
  | Some p =>
      conn ← deref w p;
      if IsAlive conn then trySend E p data (logf (entry connID)) w else Done w
  | None => Done w
  end.

(** [sendToUser] *)
Definition sendToUser (E : writers) (userID : string) (data : json) (w : World)
  : outcome World :=
  match userConnections (hub w) !! userID with
  | Some conns => for_each (send_if_alive E data (LogUserBufferFull userID)) (range conns) w
  | None => Done w
  end.

(** [sendToGroup] *)
Definition sendToGroup (E : writers) (group : string) (data : json) (w : World)
  : outcome World :=
  match groupConnections (hub w) !! group with
  | Some conns => for_each (send_if_alive E data (LogGroupBufferFull group)) (range conns) w
  | None => Done w
  end.

(** [enqueueBroadcastAll] (and [sendToAll], which has the same body) *)
Definition enqueueBroadcastAll (data : json) (w : World) : outcome World :=
  for_each
    (λ i w,
       r ← Chan.try_send (broadcastJobs (hub w)) (mkJob _broadcastAll i data);
       match r with
       | Some ch => Done (with_hub (with_broadcastJobs ch (hub w)) w)
       | None => Done (logf LogBroadcastJobsFull w)
       end)
    (seqZ 0 (shardCount (hub w))) w.

(** One round of the loop of [broadcastWorker], for the job it received. *)
Definition broadcastWorker (E : writers) (job : broadcastJob) (w : World)
  : outcome World :=
  if kind job =? _broadcastAll then
    conns ← shard_at (shard job) (shardConns (hub w));
    for_each
      (λ (kv : string * ptr) w,
         conn ← deref w kv.2;
         if IsAlive conn
         then trySend E kv.2 (data job) (logf (LogShardBufferFull (ID conn))) w
         else Done w)
      (map_to_list conns) w
  else Done w.

(** [checkHeartbeats] *)
Definition checkHeartbeats (w : World) : outcome World :=
  let t := now w in
  for_each
    (λ (kv : string * ptr) w,
       conn ← deref w kv.2;
       if ConnectionTimeout (config (hub w)) <? Time_Sub t (LastPing conn) then
         let w := logf (LogHeartbeatTimeout (ID conn)) w in
         Conn_Close kv.2 (store kv.2 (with_IsAlive false conn) w)
       else Done w)
    (map_to_list (connections (hub w))) w.

(** The [case message := <-h.broadcast] of [run], for the message received. *)
Definition dispatch (E : writers) (message : Message) (w : World) : outcome World :=
  let message :=
    if Timestamp message =? 0 then with_Timestamp (Time_Unix (now w)) message
    else message in
  match MessageJson.Marshal message with
  | None => Done (logf LogMarshalFailed w)
  | Some data =>
      if negb (bool_decide (To message = "")) then sendToUser E (To message) data w
      else if negb (bool_decide (Group message = "")) then sendToGroup E (Group message) data w
      else enqueueBroadcastAll data w
  end.

(** The cases of the [select] in [run]. *)
Inductive run_case : Type :=
  | CaseRegister (conn : ptr)
  | CaseUnregister (conn : ptr)
  | CaseBroadcast
  | CaseTick.

(** One round of the loop of [run]. A case whose channel is empty is not
    ready. *)
Definition run (E : writers) (c : run_case) (w : World) : outcome World :=
  match c with
  | CaseRegister conn => registerConnection conn w
  | CaseUnregister conn => unregisterConnection conn w
  | CaseBroadcast =>
      match Chan.buf (broadcast (hub w)) with
      | [] => Blocks
      | message :: rest =>
          let ch := Chan.Make rest (Chan.cap (broadcast (hub w)))
                      (Chan.closed (broadcast (hub w))) in
          dispatch E message (with_hub (with_broadcast ch (hub w)) w)
      end
  | CaseTick =>
      w ← (if EnableGlobalPing (config (hub w)) then
             for_each
               (λ i w,
                  match pingJobs (hub w) with
                  | Some jobs =>
                      r ← Chan.try_send jobs i;
                      match r with
                      | Some ch => Done (with_hub (with_pingJobs (Some ch) (hub w)) w)
                      | None => Done w
                      end
                  | None => Done w
                  end)
               (seqZ 0 (shardCount (hub w))) w
           else Done w);
      checkHeartbeats w
  end.

(** ** Connections (connection.go) *)

(** [HandleWebSocket], after a successful upgrade: the new connection object,
    stored at the fresh address [p]. [id] is what [generateConnectionID]
    returned. The registration itself is the hub's [CaseRegister]. *)
Definition HandleWebSocket (p : ptr) (id userID : string) (w : World) : outcome World :=
  send ← Chan.make (MessageBufferSize (config (hub w)));
  Done (store p (mkConnection id userID (mkConn false) send (now w) true ∅ ∅) w).

(** The tail shared by the handlers that answer the client:
    [data, _ := json.Marshal(response)] followed by a [select] with a
    [default] branch on [c.Send]. The responses of this package always
    encode; see [Marshal_response]. *)
Definition respond (p : ptr) (response : Message) (w : World) : outcome World :=
  conn ← deref w p;
  let data := default JNull (MessageJson.Marshal response) in
  r ← Chan.try_send (Send conn) data;
  match r with
  | Some ch => Done (store p (with_Send ch conn) w)
  | None => Done (logf (LogBufferFull (ID conn)) w)
  end.

(** [handlePing] *)
Definition handlePing (p : ptr) (w : World) : outcome World :=
  conn ← deref w p;
  let w := store p (with_LastPing (now w) conn) w in
  respond p (mkMessage "pong" ANil (Time_Unix (now w)) "" "" "") w.

(** [JoinGroup], and the first half of [handleJoinGroup] *)
Definition JoinGroup (p : ptr) (groupName : string) (w : World) : outcome World :=
  conn ← deref w p;
  let w := store p (with_Groups (<[groupName := true]> (Groups conn)) conn) w in
  Done (with_hub (with_groupConnections
                    (index_add groupName (ID conn) (groupConnections (hub w)))
                    (hub w)) w).

(** [LeaveGroup], and the first half of [handleLeaveGroup] *)
Definition LeaveGroup (p : ptr) (groupName : string) (w : World) : outcome World :=
  conn ← deref w p;
  let w := store p (with_Groups (delete groupName (Groups conn)) conn) w in
  Done (with_hub (with_groupConnections
                    (index_remove groupName (ID conn) (groupConnections (hub w)))
                    (hub w)) w).

(** [handleJoinGroup] *)
Definition handleJoinGroup (p : ptr) (msg : Message) (w : World) : outcome World :=
  match Data msg with
  | AString groupName =>
      conn ← deref w p;
      w ← JoinGroup p groupName w;
      w ← respond p (mkMessage "group_joined" (AString groupName)
                       (Time_Unix (now w)) "" "" "") w;
      Done (logf (LogJoined (UserID conn) groupName) w)
  | d => Done (logf (LogInvalidGroup d) w)
  end.

(** [handleLeaveGroup] *)
Definition handleLeaveGroup (p : ptr) (msg : Message) (w : World) : outcome World :=
  match Data msg with
  | AString groupName =>
      conn ← deref w p;
      w ← LeaveGroup p groupName w;
      w ← respond p (mkMessage "group_left" (AString groupName)
                       (Time_Unix (now w)) "" "" "") w;
      Done (logf (LogLeft (UserID conn) groupName) w)
  | d => Done (logf (LogInvalidGroup d) w)
  end.

(** [c.Hub.broadcast <- &msg] *)
Definition submit (msg : Message) (w : World) : outcome World :=
  ch ← Chan.send (broadcast (hub w)) msg;
  Done (with_hub (with_broadcast ch (hub w)) w).

(** [handleChat] *)
Definition handleChat (p : ptr) (msg : Message) (w : World) : outcome World :=
  match Data msg with
  | AMap _ =>
      if bool_decide (To msg = "") && bool_decide (Group msg = "")
      then Done (logf LogChatWithoutTarget w)
      else submit msg w
  | d => Done (logf (LogInvalidChat d) w)
  end.

(** [handleNotification] *)
Definition handleNotification (p : ptr) (msg : Message) (w : World) : outcome World :=
  match Data msg with
  | AMap _ => submit msg w
  | d => Done (logf (LogInvalidNotification d) w)
  end.

(** [handleStatus] *)
Definition handleStatus (p : ptr) (msg : Message) (w : World) : outcome World :=
  conn ← deref w p;
  let w :=
    match Data msg with
    | AMap statusData => store p (with_Metadata (statusData ∪ Metadata conn) conn) w
    | _ => w
    end in
  respond p (mkMessage "status_updated" ANil (Time_Unix (now w)) "" "" "") w.

(** [handleMessage] *)
Definition handleMessage (p : ptr) (message : json) (w : World) : outcome World :=
  match MessageJson.Unmarshal message with
  | None => Done (logf LogParseFailed w)
  | Some msg =>
      conn ← deref w p;
      let msg := with_From (UserID conn) msg in
      if decide (Type_ msg = "ping") then handlePing p w
      else if decide (Type_ msg = "join_group") then handleJoinGroup p msg w
      else if decide (Type_ msg = "leave_group") then handleLeaveGroup p msg w
      else if decide (Type_ msg = "chat") then handleChat p msg w
      else if decide (Type_ msg = "notification") then handleNotification p msg w
      else if decide (Type_ msg = "status") then handleStatus p msg w
      else Done (logf (LogUnknownType (Type_ msg)) w)
  end.

(** One receive of [writePump]: the writer takes the payload at the head of
    the queue and, in the same frame, all that are queued behind it. On a
    closed and drained queue it leaves, closing the transport. *)
Definition writePump (p : ptr) (w : World) : outcome World :=
  conn ← deref w p;
  match Chan.buf (Send conn) with
  | [] => if Chan.closed (Send conn) then Conn_Close p w else Blocks
  | _ :: _ =>
      Done (store p (with_Send (Chan.Make [] (Chan.cap (Send conn))
                                  (Chan.closed (Send conn))) conn) w)
  end.

(** ** The system as a whole

    What the goroutines of the package can do to the world, one step at a
    time. Connection objects may be any value of the type (the tests build
    them by hand), at a fresh address. *)

Inductive action : Type :=
  | ActNew (p : ptr) (c : Connection)
  | ActRun (E : writers) (c : run_case)
  | ActWorker (E : writers)
  | ActFrame (p : ptr) (message : json)
  | ActJoin (p : ptr) (groupName : string)
  | ActLeave (p : ptr) (groupName : string)
  | ActSubmit (msg : Message)
  | ActWrite (p : ptr)
  | ActClose (p : ptr)
  | ActWait (d : Z).

Definition exec (a : action) (w : World) : outcome World :=
  match a with
  | ActNew p c =>
      match heap w !! p with
      | None => Done (store p c w)
      | Some _ => Blocks
      end
  | ActRun E c => run E c w
  | ActWorker E =>
      match Chan.buf (broadcastJobs (hub w)) with
      | [] => Blocks
      | job :: rest =>
          let ch := Chan.Make rest (Chan.cap (broadcastJobs (hub w)))
                      (Chan.closed (broadcastJobs (hub w))) in
          broadcastWorker E job (with_hub (with_broadcastJobs ch (hub w)) w)
      end
  | ActFrame p message => handleMessage p message w
  | ActJoin p g => JoinGroup p g w
  | ActLeave p g => LeaveGroup p g w
  | ActSubmit msg => submit msg w
  | ActWrite p => writePump p w
  | ActClose p => Conn_Close p w
  | ActWait d => if d <? 0 then Blocks else Done (with_now (now w + d) w)
  end.

(** The worlds a hub built from [cfg] can be in. *)
Inductive reachable (cfg : Config) : World → Prop :=
  | reach_new h t :
      NewHub (Some cfg) = Done h → reachable cfg (mkWorld h ∅ t [])
  | reach_step w a w' :
      reachable cfg w → exec a w = Done w' → reachable cfg w'.

(** ** Configuration helpers (the second half of connection.go) *)

(** [CloneConfig]: a new [Config] with every field copied. *)
Definition CloneConfig (config : option Config) : option Config :=
  match config with
  | None => None
  | Some config =>
      Some {|
        MaxConnections := MaxConnections config;
        HeartbeatInterval := HeartbeatInterval config;
        ConnectionTimeout := ConnectionTimeout config;
        MessageBufferSize := MessageBufferSize config;
        ReadBufferSize := ReadBufferSize config;
        WriteBufferSize := WriteBufferSize config;
        MaxMessageSize := MaxMessageSize config;
        EnableCompression := EnableCompression config;
        EnableMessageQueue := EnableMessageQueue config;
        MessageQueueSize := MessageQueueSize config;
        EnableCluster := EnableCluster config;
        ClusterNodeID := ClusterNodeID config;
        ShardCount := ShardCount config;
        BroadcastWorkerCount := BroadcastWorkerCount config;
        DropOnFull := DropOnFull config;
        CompressionLevel := CompressionLevel config;
        CloseOnBackpressure := CloseOnBackpressure config;
        SendTimeout := SendTimeout config;
        EnableGlobalPing := EnableGlobalPing config;
        PingWorkerCount := PingWorkerCount config
      |}
  end.

(** The body of the loop of [MergeConfig] for a [config] that is not nil.
    Each statement assigns one field of [result] and reads [config] only, so
    the fields are given side by side: a number is taken over when it is
    positive (the compression level when it is not zero), a cluster node id
    when it is not empty, and the six flags always. *)
Definition merge_fields (result config : Config) : Config := {|
  MaxConnections :=
    if 0 <? MaxConnections config then MaxConnections config else MaxConnections result;
  HeartbeatInterval :=
    if 0 <? HeartbeatInterval config then HeartbeatInterval config
    else HeartbeatInterval result;
  ConnectionTimeout :=
    if 0 <? ConnectionTimeout config then ConnectionTimeout config
    else ConnectionTimeout result;
  MessageBufferSize :=
    if 0 <? MessageBufferSize config then MessageBufferSize config
    else MessageBufferSize result;
  ReadBufferSize :=
    if 0 <? ReadBufferSize config then ReadBufferSize config else ReadBufferSize result;
  WriteBufferSize :=
    if 0 <? WriteBufferSize config then WriteBufferSize config else WriteBufferSize result;
  MaxMessageSize :=
    if 0 <? MaxMessageSize config then MaxMessageSize config else MaxMessageSize result;
  EnableCompression := EnableCompression config;
  EnableMessageQueue := EnableMessageQueue config;
  MessageQueueSize :=
    if 0 <? MessageQueueSize config then MessageQueueSize config
    else MessageQueueSize result;
  EnableCluster := EnableCluster config;
  ClusterNodeID :=
    if decide (ClusterNodeID config = "") then ClusterNodeID result
    else ClusterNodeID config;
  ShardCount := if 0 <? ShardCount config then ShardCount config else ShardCount result;
  BroadcastWorkerCount :=
    if 0 <? BroadcastWorkerCount config then BroadcastWorkerCount config
    else BroadcastWorkerCount result;
  DropOnFull := DropOnFull config;
  CompressionLevel :=
    if CompressionLevel config =? 0 then CompressionLevel result
    else CompressionLevel config;
  CloseOnBackpressure := CloseOnBackpressure config;
  SendTimeout := if 0 <? SendTimeout config then SendTimeout config else SendTimeout result;
  EnableGlobalPing := EnableGlobalPing config;
  PingWorkerCount :=
    if 0 <? PingWorkerCount config then PingWorkerCount config else PingWorkerCount result
|}.

(** One round of the loop of [MergeConfig]: a nil [config] is skipped; for
    any other one the first assignment through a nil [result] panics. *)
Definition merge_step (config result : option Config) : outcome (option Config) :=
  match config with
  | None => Done result
  | Some config => result ← of_option result; Done (Some (merge_fields result config))
  end.

(** [MergeConfig(configs...)]. With one argument the argument itself is
    returned, not a copy; the model, which passes configurations by value,
    does not tell the two apart. *)
Definition MergeConfig (configs : list (option Config)) : outcome (option Config) :=
  match configs with
  | [] => Done (Some DefaultConfig)
  | [config] => Done config
  | first :: rest => for_each merge_step rest (CloneConfig first)
  end.

(** The names of the environment variables, as the README of the package
    lists them. *)
Definition EnvWebSocketMaxConnections : string := "WEBSOCKET_MAX_CONNECTIONS".
Definition EnvWebSocketHeartbeatInterval : string := "WEBSOCKET_HEARTBEAT_INTERVAL".
Definition EnvWebSocketConnectionTimeout : string := "WEBSOCKET_CONNECTION_TIMEOUT".
Definition EnvWebSocketMessageBufferSize : string := "WEBSOCKET_MESSAGE_BUFFER_SIZE".
Definition EnvWebSocketMessageQueueSize : string := "WEBSOCKET_MESSAGE_QUEUE_SIZE".
Definition EnvWebSocketEnableCompression : string := "WEBSOCKET_ENABLE_COMPRESSION".
Definition EnvWebSocketEnableMessageQueue : string := "WEBSOCKET_ENABLE_MESSAGE_QUEUE".
Definition EnvWebSocketEnableCluster : string := "WEBSOCKET_ENABLE_CLUSTER".
Definition EnvWebSocketClusterNodeID : string := "WEBSOCKET_CLUSTER_NODE_ID".
Definition EnvWebSocketShardCount : string := "WEBSOCKET_SHARD_COUNT".
Definition EnvWebSocketBroadcastWorkers : string := "WEBSOCKET_BROADCAST_WORKERS".
Definition EnvWebSocketDropOnFull : string := "WEBSOCKET_DROP_ON_FULL".
Definition EnvWebSocketCompressionLevel : string := "WEBSOCKET_COMPRESSION_LEVEL".
Definition EnvWebSocketReadBufferSize : string := "WEBSOCKET_READ_BUFFER_SIZE".
Definition EnvWebSocketWriteBufferSize : string := "WEBSOCKET_WRITE_BUFFER_SIZE".
Definition EnvWebSocketMaxMessageSize : string := "WEBSOCKET_MAX_MESSAGE_SIZE".
Definition EnvWebSocketCloseOnBackpressure : string := "WEBSOCKET_CLOSE_ON_BACKPRESSURE".
Definition EnvWebSocketSendTimeoutMs : string := "WEBSOCKET_SEND_TIMEOUT_MS".
Definition EnvWebSocketEnableGlobalPing : string := "WEBSOCKET_ENABLE_GLOBAL_PING".
Definition EnvWebSocketPingWorkers : string := "WEBSOCKET_PING_WORKERS".

(** [s == "true" || s == "1"] *)
Definition truthy (s : string) : bool := bool_decide (s = "true") || bool_decide (s = "1").

Section Env.
(** The two readers of the package [util], which is not part of this tree:
    [GetIntEnv] returns an [int64] and [GetEnv] a string. *)
Variable GetIntEnv : string → Z.
Variable GetEnv : string → string.

(** [if v := util.GetIntEnv(name); v > 0 { field = f(v) }] *)
Definition int_env (name : string) (f : Z → Z) (field : Z) : Z :=
  if 0 <? GetIntEnv name then f (GetIntEnv name) else field.

(** [if s := util.GetEnv(name); s != "" { field = s == "true" || s == "1" }] *)
Definition bool_env (name : string) (field : bool) : bool :=
  if decide (GetEnv name = "") then field else truthy (GetEnv name).

(** [LoadConfigFromEnv]. A product of durations wraps around. *)
Definition LoadConfigFromEnv : Config :=
  let config := DefaultConfig in {|
    MaxConnections := int_env EnvWebSocketMaxConnections id (MaxConnections config);
    HeartbeatInterval :=
      int_env EnvWebSocketHeartbeatInterval (λ v, wrap64 (v * Second))
              (HeartbeatInterval config);
    ConnectionTimeout :=
      int_env EnvWebSocketConnectionTimeout (λ v, wrap64 (v * Second))
              (ConnectionTimeout config);
    MessageBufferSize := int_env EnvWebSocketMessageBufferSize id (MessageBufferSize config);
    ReadBufferSize := int_env EnvWebSocketReadBufferSize id (ReadBufferSize config);
    WriteBufferSize := int_env EnvWebSocketWriteBufferSize id (WriteBufferSize config);
    MaxMessageSize := int_env EnvWebSocketMaxMessageSize id (MaxMessageSize config);
    EnableCompression := bool_env EnvWebSocketEnableCompression (EnableCompression config);
    EnableMessageQueue := bool_env EnvWebSocketEnableMessageQueue (EnableMessageQueue config);
    MessageQueueSize := int_env EnvWebSocketMessageQueueSize id (MessageQueueSize config);
    EnableCluster := bool_env EnvWebSocketEnableCluster (EnableCluster config);
    ClusterNodeID :=
      if decide (GetEnv EnvWebSocketClusterNodeID = "") then ClusterNodeID config
      else GetEnv EnvWebSocketClusterNodeID;
    ShardCount := int_env EnvWebSocketShardCount id (ShardCount config);
    BroadcastWorkerCount :=
      int_env EnvWebSocketBroadcastWorkers id (BroadcastWorkerCount config);
    DropOnFull := bool_env EnvWebSocketDropOnFull (DropOnFull config);
    CompressionLevel :=
      if GetIntEnv EnvWebSocketCompressionLevel =? 0 then CompressionLevel config
      else GetIntEnv EnvWebSocketCompressionLevel;
    CloseOnBackpressure :=
      bool_env EnvWebSocketCloseOnBackpressure (CloseOnBackpressure config);
    SendTimeout :=
      int_env EnvWebSocketSendTimeoutMs (λ v, wrap64 (v * Millisecond)) (SendTimeout config);
    EnableGlobalPing := bool_env EnvWebSocketEnableGlobalPing (EnableGlobalPing config);
    PingWorkerCount := int_env EnvWebSocketPingWorkers id (PingWorkerCount config)
  |}.
End Env.

(** ** Queries on the hub (websocket.go) *)

(** [GetConnectionCount] *)
Definition GetConnectionCount (h : Hub) : Z := connectionCount h.

(** [GetUserConnections] *)
Definition GetUserConnections (h : Hub) (userID : string) : Z :=
  match userConnections h !! userID with
  | Some conns => Z.of_nat (size conns)
  | None => 0
  end.

(** [GetGroupConnections] *)
Definition GetGroupConnections (h : Hub) (group : string) : Z :=
  match groupConnections h !! group with
  | Some conns => Z.of_nat (size conns)
  | None => 0
  end.

(** ** The exported methods of a connection (connection.go) *)

(** The two errors of [SendMessage]: the one of [json.Marshal], and the one
    for a full queue. *)
Inductive send_error : Type := ErrMarshal | ErrBufferFull.

(** [SendMessage(message)]; a nil [message] encodes as [null]. The result is
    the error, [None] for nil. *)
Definition SendMessage (p : ptr) (message : option Message) (w : World)
  : outcome (option send_error * World) :=
  match from_option MessageJson.Marshal (Some JNull) message with
  | None => Done (Some ErrMarshal, w)
  | Some data =>
      conn ← deref w p;
      r ← Chan.try_send (Send conn) data;
      match r with
      | Some ch => Done (None, store p (with_Send ch conn) w)
      | None => Done (Some ErrBufferFull, w)
      end
  end.

(** [IsInGroup]: reading a key that is absent gives [false]. *)
Definition IsInGroup (p : ptr) (groupName : string) (w : World) : outcome bool :=
  conn ← deref w p; Done (default false (Groups conn !! groupName)).

(** [GetGroups]: the keys, in the order the [range] visits them. *)
Definition GetGroups (p : ptr) (w : World) : outcome (list string) :=
  conn ← deref w p; Done (range (Groups conn)).

(** [generateConnectionID]: ["conn_%d"] of [time.Now().UnixNano()]. *)
Definition generateConnectionID (w : World) : string := "conn_" +:+ pretty (now w).

(** [HandleWebSocket] with the id it generates. *)
Definition accept (p : ptr) (userID : string) (w : World) : outcome World :=
  HandleWebSocket p (generateConnectionID w) userID w.

(** ** Vocabulary of the theorems *)

(** The part of the hub that registration guards. *)
Definition registry (w : World) : gmap string ptr * Z * Config :=
  (connections (hub w), connectionCount (hub w), config (hub w)).

(** The counter bounds the id map from above and stays below the limit. *)
Definition within_limit (cfg : Config) (w : World) : Prop :=
  MaxConnections (config (hub w)) = MaxConnections cfg ∧
  Z.of_nat (size (connections (hub w))) ≤ connectionCount (hub w) ≤ MaxConnections cfg.

(** Running a list of steps. *)
Definition execs (l : list action) (w : World) : outcome World := for_each exec l w.

(** *** Worlds used as examples *)

(** A configuration with small limits. *)
Definition small_config (max buffer : Z) (drop close : bool) (timeout : Z) : Config := {|
  MaxConnections := max;
  HeartbeatInterval := 30 * Second;
  ConnectionTimeout := 60 * Second;
  MessageBufferSize := buffer;
  ReadBufferSize := 1024;
  WriteBufferSize := 1024;
  MaxMessageSize := 512;
  EnableCompression := true;
  EnableMessageQueue := true;
  MessageQueueSize := 4;
  EnableCluster := false;
  ClusterNodeID := "";
  ShardCount := 2;
  BroadcastWorkerCount := 2;
  DropOnFull := drop;
  CompressionLevel := -2;
  CloseOnBackpressure := close;
  SendTimeout := timeout;
  EnableGlobalPing := false;
  PingWorkerCount := 8
|}.

(** The connection [HandleWebSocket] builds at time [t]. *)
Definition fresh_conn (id user : string) (buffer t : Z) : Connection :=
  mkConnection id user (mkConn false) (Chan.Make [] buffer false) t true ∅ ∅.

(** No writer makes room in time. *)
Definition idle : writers := λ _, None.

(** The world [steps] lead to from a new hub, if they all return. *)
Definition world_after (cfg : Config) (steps : list action) : outcome World :=
  h ← NewHub (Some cfg); execs steps (mkWorld h ∅ 0 []).

Definition the {A} (d : A) (o : outcome A) : A :=
  match o with
  | Done a => a
  | _ => d
  end.

Definition empty_world : World :=
  mkWorld (mkHub ∅ ∅ ∅ (Chan.Make [] 0 false) 0 DefaultConfig 1 [∅]
                 (Chan.Make [] 0 false) None) ∅ 0 [].

(** One registered connection in a hub that admits one: the hub is full. *)
Definition full_steps : list action :=
  [ActNew 1%nat (fresh_conn "conn_1" "u1" 1 0);
   ActRun idle (CaseRegister 1%nat);
   ActNew 2%nat (fresh_conn "conn_2" "u2" 1 0)].
Definition full_world : World :=
  the empty_world (world_after (small_config 1 1 true false 0) full_steps).

(** A drop callback that only logs, as all callbacks of the package do. *)
Definition observer (onDrop : World → World) : Prop :=
  ∀ w, hub (onDrop w) = hub w ∧ heap (onDrop w) = heap w ∧ now (onDrop w) = now w.

(** The longest [trySend] waits under a configuration. *)
Definition send_deadline (cfg : Config) : Z :=
  if DropOnFull cfg then 0
  else if SendTimeout cfg <=? 0 then 50 * Millisecond
  else SendTimeout cfg.

(** A frame carrying a ping. *)
Definition ping_frame : json := JObject [("type", JString "ping")].

(** One registered connection whose queue of capacity one holds a pong. *)
Definition stalled_steps : list action :=
  [ActNew 1%nat (fresh_conn "conn_1" "u1" 1 0);
   ActRun idle (CaseRegister 1%nat);
   ActFrame 1%nat ping_frame].

(** ... under bounded waiting with the send timeout left at zero, *)
Definition stalled_world : World :=
  the empty_world (world_after (small_config 4 1 false false 0) stalled_steps).

(** ... and under drop-on-full with force-close. *)
Definition choked_world : World :=
  the empty_world (world_after (small_config 4 1 true true 0) stalled_steps).

(** What [handlePing] answers at time [t]. *)
Definition pong_payload (t : Z) : json :=
  JObject [("type", JString "pong"); ("data", JNull); ("timestamp", JNumber (NumInt t))].

(** The connection of [stalled_world] and [choked_world]. *)
Definition stalled_conn : Connection :=
  mkConnection "conn_1" "u1" (mkConn false) (Chan.Make [pong_payload 0] 1 false)
    0 true ∅ ∅.

(** A heartbeat interval above the connection timeout. *)
Definition slow_heartbeat_config : Config := {|
  MaxConnections := 100000;
  HeartbeatInterval := 60 * Second;
  ConnectionTimeout := 30 * Second;
  MessageBufferSize := 256;
  ReadBufferSize := 1024;
  WriteBufferSize := 1024;
  MaxMessageSize := 512;
  EnableCompression := true;
  EnableMessageQueue := true;
  MessageQueueSize := 1000;
  EnableCluster := false;
  ClusterNodeID := "";
  ShardCount := 16;
  BroadcastWorkerCount := 32;
  DropOnFull := true;
  CompressionLevel := -2;
  CloseOnBackpressure := false;
  SendTimeout := 50 * Millisecond;
  EnableGlobalPing := false;
  PingWorkerCount := 8
|}.

(** The two combinations of C4. *)
Definition heartbeat_not_below_timeout (cfg : Config) : Prop :=
  ConnectionTimeout cfg ≤ HeartbeatInterval cfg.
Definition backpressure_without_timeout (cfg : Config) : Prop :=
  CloseOnBackpressure cfg = true ∧ SendTimeout cfg ≤ 0.

(** The connection behind [q] is in the id map. *)
Definition registered (w : World) (q : ptr) : Prop :=
  ∃ id, connections (hub w) !! id = Some q.

(** The test of [checkHeartbeats], made at the time of the scan. *)
Definition expired (w : World) (c : Connection) : bool :=
  ConnectionTimeout (config (hub w)) <? Time_Sub (now w) (LastPing c).

(** What [checkHeartbeats] does to an expired connection. *)
Definition evicted (c : Connection) : Connection :=
  with_Conn (mkConn true) (with_IsAlive false c).

(** The body of the loop of [checkHeartbeats], for a scan made at time [t]. *)
Definition heartbeat_body (t : Z) (kv : string * ptr) (w : World) : outcome World :=
  conn ← deref w kv.2;
  if ConnectionTimeout (config (hub w)) <? Time_Sub t (LastPing conn) then
    let w := logf (LogHeartbeatTimeout (ID conn)) w in
    Conn_Close kv.2 (store kv.2 (with_IsAlive false conn) w)
  else Done w.

(** Two registered connections, 61 seconds after they were accepted; the
    second one has just sent a ping. *)
Definition heartbeat_steps : list action :=
  [ActNew 1%nat (fresh_conn "conn_1" "u1" 1 0);
   ActRun idle (CaseRegister 1%nat);
   ActNew 2%nat (fresh_conn "conn_2" "u2" 1 0);
   ActRun idle (CaseRegister 2%nat);
   ActWait (61 * Second);
   ActFrame 2%nat ping_frame].
Definition heartbeat_world : World :=
  the empty_world (world_after (small_config 4 1 true false 0) heartbeat_steps).

(** An index entry after [id] has been taken out of it; an entry that
    becomes empty is dropped. *)
Definition without (id : string) (entry : option (gmap string bool))
  : option (gmap string bool) :=
  m ← entry;
  if decide (size (delete id m) = 0%nat) then None else Some (delete id m).

(** An index entry after [id] has been put into it. *)
Definition including (id : string) (entry : option (gmap string bool))
  : gmap string bool :=
  <[id := true]> (default ∅ entry).

(** [id] is listed under the key [k] of an index. *)
Definition listed (idx : gmap string (gmap string bool)) (k id : string) : Prop :=
  ∃ m, idx !! k = Some m ∧ is_Some (m !! id).

(** The shard table has the shape [NewHub] gives it. *)
Definition shards_ok (h : Hub) : Prop :=
  0 < shardCount h < 2 ^ 32 ∧ length (shardConns h) = Z.to_nat (shardCount h).

(** Frames asking to join and to leave a group. *)
Definition join_frame (g : string) : json :=
  JObject [("type", JString "join_group"); ("data", JString g)].
Definition leave_frame (g : string) : json :=
  JObject [("type", JString "leave_group"); ("data", JString g)].

(** One registered connection that has joined the group "g". *)
Definition joined_steps : list action :=
  [ActNew 1%nat (fresh_conn "conn_1" "u1" 2 0);
   ActRun idle (CaseRegister 1%nat);
   ActFrame 1%nat (join_frame "g")].
Definition joined_world : World :=
  the empty_world (world_after (small_config 4 2 true false 0) joined_steps).
Definition joined_conn : Connection :=
  mkConnection "conn_1" "u1" (mkConn false)
    (Chan.Make [JObject [("type", JString "group_joined"); ("data", JString "g");
                         ("timestamp", JNumber (NumInt 0))]] 2 false)
    0 true {["g" := true]} ∅.

(** The identity of every connection object: its id and its user. Nothing in
    the package assigns to these two fields. *)
Definition ids (w : World) : gmap ptr (string * string) :=
  (λ c, (ID c, UserID c)) <$> heap w.

(** One registered connection, before it joins anything. *)
Definition registered_world : World :=
  the empty_world
    (world_after (small_config 4 2 true false 0)
       [ActNew 1%nat (fresh_conn "conn_1" "u1" 2 0); ActRun idle (CaseRegister 1%nat)]).

(** The messages [handleMessage] hands to the group handlers. *)
Definition join_msg (g : string) : Message := mkMessage "join_group" (AString g) 0 "u1" "" "".
Definition leave_msg (g : string) : Message := mkMessage "leave_group" (AString g) 0 "u1" "" "".

(** Two messages that agree on every field but [From]. *)
Definition same_but_From (m1 m2 : Message) : Prop :=
  Type_ m1 = Type_ m2 ∧ Data m1 = Data m2 ∧ Timestamp m1 = Timestamp m2 ∧
  To m1 = To m2 ∧ Group m1 = Group m2.

(** The message has a recipient: a user or a group. *)
Definition targeted (m : Message) : Prop := To m ≠ "" ∨ Group m ≠ "".

(** The payload is a JSON object. *)
Definition is_object (d : any) : Prop := ∃ m, d = AMap m.

(** The frame [f] with the value of every [from] member replaced by [s]. *)
Definition is_from (k : string) : bool :=
  match MessageJson.field_of_key k with
  | Some MessageJson.FFrom => true
  | _ => false
  end.
Definition replace_from (s : string) (f : json) : json :=
  match f with
  | JObject l =>
      JObject ((λ kv : string * json, if is_from kv.1 then (kv.1, JString s) else kv) <$> l)
  | _ => f
  end.

(** A chat frame for the user "u2" that claims to come from [sender]. *)
Definition chat_frame (sender : string) : json :=
  JObject [("type", JString "chat");
           ("data", JObject [("text", JString "hi")]);
           ("to", JString "u2");
           ("from", JString sender)].
Definition chat_msg (sender : string) : Message :=
  mkMessage "chat" (AMap {["text" := AString "hi"]}) 0 sender "u2" "".

(** A chat frame that names no recipient. *)
Definition untargeted_chat_frame : json :=
  JObject [("type", JString "chat"); ("data", JObject [("text", JString "hi")])].
Definition untargeted_chat_msg : Message :=
  mkMessage "chat" (AMap {["text" := AString "hi"]}) 0 "" "" "".

(** What an attempt to deliver [payload] does to the connection it is aimed
    at, under the configuration [cfg] and with the writer behaving as [r]:
    with room in the queue the payload is queued; on a full queue it is
    dropped (and the transport closed, if so configured), unless in
    bounded-wait mode the writer makes room before the deadline. *)
Definition delivery (cfg : Config) (r : Chan.receiver) (payload : json) (c : Connection)
  : Connection :=
  let dropped := if CloseOnBackpressure cfg then with_Conn (mkConn true) c else c in
  if Chan.full (Send c) then
    if DropOnFull cfg then dropped
    else
      match r with
      | Some (d, k) =>
          if (0 <=? d) && (d <? send_deadline cfg)
          then with_Send (Chan.Make (drop (S k) (Chan.buf (Send c)) ++ [payload])
                            (Chan.cap (Send c)) false) c
          else dropped
      | None => dropped
      end
  else with_Send (Chan.push (Send c) payload) c.

(** The id map points at live objects that carry the id they are filed
    under, with their queues open. *)
Definition registry_ok (w : World) : Prop :=
  ∀ id q, connections (hub w) !! id = Some q →
    ∃ c, heap w !! q = Some c ∧ ID c = id ∧ Chan.closed (Send c) = false.

(** The user index lists a registered id under the user of its connection,
    and under no other key. *)
Definition user_index_ok (w : World) : Prop :=
  ∀ id q c u, connections (hub w) !! id = Some q → heap w !! q = Some c →
    (listed (userConnections (hub w)) u id ↔ UserID c = u ∧ u ≠ "").

(** The connection behind [q] is filed in the id map under an id that the
    index [idx] lists under [k]. *)
Definition reached (w : World) (idx : gmap string (gmap string bool)) (k : string)
    (q : ptr) : Prop :=
  ∃ id, listed idx k id ∧ connections (hub w) !! id = Some q.

(** The message as [run] serializes it. *)
Definition stamped (t : Z) (message : Message) : Message :=
  if Timestamp message =? 0 then with_Timestamp (Time_Unix t) message else message.

(** The jobs [enqueueBroadcastAll] gets into a queue with [room] free
    places: one per shard, as far as the room goes. *)
Definition fanout (room : Z) (shards : Z) (payload : json) : list broadcastJob :=
  (λ i, mkJob _broadcastAll i payload) <$> take (Z.to_nat room) (seqZ 0 shards).

(** The connection behind [q] is filed in the id map under one of [ids]. *)
Definition routed (w : World) (ids : list string) (q : ptr) : bool :=
  bool_decide (q ∈ omap (λ id, connections (hub w) !! id) ids).

(** The store while [payload] is being sent to the ids of a list, when the
    ids [seen] have been dealt with. *)
Definition delivered (E : writers) (payload : json) (w : World) (seen : list string)
    (s : World) : Prop :=
  hub s = hub w ∧
  ∀ q, heap s !! q =
       (λ c, if routed w seen q && IsAlive c
             then delivery (config (hub w)) (E q) payload c else c) <$> heap w !! q.

(** The two hypotheses of the routing theorem, as tests to run. *)
Definition listedb (idx : gmap string (gmap string bool)) (k id : string) : bool :=
  match idx !! k with
  | Some m => bool_decide (is_Some (m !! id))
  | None => false
  end.

Definition registry_okb (w : World) : bool :=
  forallb
    (λ kv : string * ptr,
       match heap w !! kv.2 with
       | Some c => bool_decide (ID c = kv.1) && negb (Chan.closed (Send c))
       | None => false
       end)
    (map_to_list (connections (hub w))).

Definition user_index_okb (w : World) : bool :=
  forallb
    (λ kv : string * ptr,
       match heap w !! kv.2 with
       | Some c =>
           (bool_decide (UserID c = "") || listedb (userConnections (hub w)) (UserID c) kv.1)
           && forallb
                (λ um : string * gmap string bool,
                   negb (bool_decide (is_Some (um.2 !! kv.1)))
                   || (bool_decide (um.1 = UserID c) && negb (bool_decide (um.1 = ""))))
                (map_to_list (userConnections (hub w)))
       | None => true
       end)
    (map_to_list (connections (hub w))).

(** A chat message for the user [to]. *)
Definition direct_msg (to : string) : Message :=
  mkMessage "chat" (AMap {["text" := AString "hi"]}) 7 "u9" to "".
Definition direct_payload (to : string) : json :=
  JObject [("type", JString "chat");
           ("data", JObject [("text", JString "hi")]);
           ("timestamp", JNumber (NumInt 7));
           ("from", JString "u9");
           ("to", JString to)].

(** Two connections of the user "u1" and one of the user "u2", all
    registered, with room in their queues. *)
Definition scenario_steps : list action :=
  [ActNew 1%nat (fresh_conn "conn_1" "u1" 2 0);
   ActRun idle (CaseRegister 1%nat);
   ActNew 2%nat (fresh_conn "conn_2" "u1" 2 0);
   ActRun idle (CaseRegister 2%nat);
   ActNew 3%nat (fresh_conn "conn_3" "u2" 2 0);
   ActRun idle (CaseRegister 3%nat)].
Definition scenario_world : World :=
  the empty_world (world_after (small_config 4 2 true false 0) scenario_steps).

(** One registered, alive connection of "u1" whose queue is full, under
    drop-on-full without force-close. *)
Definition congested_world : World :=
  the empty_world (world_after (small_config 4 1 true false 0) stalled_steps).

(** A dynamic value of the kinds the decoder produces, with well-formed
    strings: what a [Data] decoded from a frame looks like. *)
Inductive plain : any → Prop :=
  | plain_nil : plain ANil
  | plain_bool b : plain (ABool b)
  | plain_float x : plain (AFloat64 x)
  | plain_string s : Utf8.ValidString s = true → plain (AString s)
  | plain_slice l : Forall plain l → plain (ASlice l)
  | plain_map m :
      (∀ k v, m !! k = Some v → Utf8.ValidString k = true ∧ plain v) →
      plain (AMap m).

(** The number of constructors of a dynamic value. *)
Fixpoint any_size (a : any) : nat :=
  match a with
  | ASlice l => S (foldr (λ x n, (any_size x + n)%nat) 0%nat l)
  | AMap m => S (map_fold (λ _ x n, (any_size x + n)%nat) 0%nat m)
  | _ => 1%nat
  end.

(** A message whose strings are well-formed, whose payload is plain and
    whose timestamp fits its type. *)
Definition wire_safe (m : Message) : Prop :=
  Utf8.ValidString (Type_ m) = true ∧
  Utf8.ValidString (From m) = true ∧
  Utf8.ValidString (To m) = true ∧
  Utf8.ValidString (Group m) = true ∧
  int64 (Timestamp m) ∧
  plain (Data m).

(** The members of a JSON object with the key [k]. *)
Definition has_member (k : string) (j : json) : Prop :=
  match j with
  | JObject l => k ∈ l.*1
  | _ => False
  end.

(** The message of [TestMessageSerialization], and the same message with a
    Go [int] as its payload. *)
Definition test_message : Message :=
  mkMessage "test" (AString "test_data") 1234567890 "user1" "user2" "test_group".
Definition int_message : Message :=
  mkMessage "test" (AInt 1) 1234567890 "user1" "user2" "test_group".

(** The heap during a scan of the world [w], when the connections behind
    [seen] have been dealt with. *)
Definition scanned (w : World) (seen : list ptr) (s : World) : Prop :=
  hub s = hub w ∧
  now s = now w ∧
  ∀ q, heap s !! q =
       (λ c, if bool_decide (q ∈ seen) && expired w c then evicted c else c)
         <$> heap w !! q.

(** * Theorems *)

(** ** Reasoning about outcomes and loops *)

Lemma bind_Done {A B} (m : outcome A) (f : A → outcome B) (b : B) :
  m ≫= f = Done b ↔ ∃ a, m = Done a ∧ f a = Done b.
Proof.
  destruct m as [a| |]; simpl; split.
  - eauto.
  - by intros (a' & [= ->] & ?).
  - done.
  - by intros (a' & ? & ?).
  - done.
  - by intros (a' & ? & ?).
Qed.

Lemma deref_Done w p c : deref w p = Done c ↔ heap w !! p = Some c.
Proof. unfold deref. destruct (heap w !! p); simpl; split; congruence. Qed.

(** Taking a successful call apart, one bind or branch at a time. *)
Ltac unbind H :=
  repeat match type of H with
  | (_ ≫= _) = Done _ =>
      let a := fresh "r" in
      let E := fresh "E" in
      apply bind_Done in H as (a & E & H)
  | deref _ _ = Done _ => apply deref_Done in H
  | Done _ = Done _ => injection H as H
  end.

Lemma for_each_nil {A S} (body : A → S → outcome S) s :
  for_each body [] s = Done s.
Proof. reflexivity. Qed.

Lemma for_each_cons {A S} (body : A → S → outcome S) x l s :
  for_each body (x :: l) s = body x s ≫= for_each body l.
Proof. reflexivity. Qed.

Lemma for_each_app {A S} (body : A → S → outcome S) l1 l2 s :
  for_each body (l1 ++ l2) s = for_each body l1 s ≫= for_each body l2.
Proof.
  revert s. induction l1 as [|x l1 IH]; intros s; simpl; [done|].
  destruct (body x s); simpl; auto.
Qed.

(** A property kept by every round is kept by the loop. *)
Lemma for_each_inv {A S} (I : S → Prop) (body : A → S → outcome S) l s s' :
  (∀ x s s', x ∈ l → I s → body x s = Done s' → I s') →
  I s → for_each body l s = Done s' → I s'.
Proof.
  revert s. induction l as [|x l IH]; intros s Hbody Hs Hrun; simpl in Hrun.
  - by injection Hrun as <-.
  - apply bind_Done in Hrun as (s1 & H1 & Hrun).
    apply (IH s1); [| |done].
    + intros y t t' Hy. apply Hbody. by right.
    + eapply Hbody; [by left|done..].
Qed.

(** A loop whose rounds cannot fail in states satisfying [I] returns. *)
Lemma for_each_Done {A S} (I : S → Prop) (body : A → S → outcome S) l s :
  (∀ x s, x ∈ l → I s → ∃ s', body x s = Done s' ∧ I s') →
  I s → ∃ s', for_each body l s = Done s' ∧ I s'.
Proof.
  revert s. induction l as [|x l IH]; intros s Hbody Hs; simpl.
  - eauto.
  - destruct (Hbody x s) as (s1 & -> & H1); [by left|done|]. simpl.
    apply IH; [|done]. intros y t Hy. apply Hbody. by right.
Qed.

(** Taking a call apart along its binds and branches. *)
Ltac cases H :=
  repeat first
    [ progress cbv beta in H
    | progress unbind H
    | match type of H with
      | context [match ?x with _ => _ end] =>
          let E := fresh "E" in destruct x eqn:E; simpl in H; try discriminate H
      end
    | progress subst ];
  repeat match goal with
  | D : deref _ _ = Done _ |- _ => apply deref_Done in D
  end.


(** ** The model on small inputs *)

Example Marshal_chat :
  MessageJson.Marshal
    (mkMessage "chat" (AMap {["b" := AString "x"; "a" := AInt 1]}) 7 "u1" "" "g")
  = Some (JObject [("type", JString "chat");
                   ("data", JObject [("a", JNumber (NumInt 1)); ("b", JString "x")]);
                   ("timestamp", JNumber (NumInt 7));
                   ("from", JString "u1"); ("group", JString "g")]).
Proof. vm_compute. reflexivity. Qed.

Example Unmarshal_chat :
  MessageJson.Unmarshal
    (JObject [("Type", JString "chat"); ("data", JObject [("a", JNumber (NumInt 1))]);
              ("from", JString "u1"); ("from", JString "u2"); ("extra", JNull)])
  = Some (mkMessage "chat" (AMap {["a" := AFloat64 (NumInt 1)]}) 0 "u2" "" "").
Proof. vm_compute. reflexivity. Qed.

Example Unmarshal_ill_typed :
  MessageJson.Unmarshal (JObject [("type", JString "chat"); ("from", JNumber (NumInt 5))])
  = None.
Proof. reflexivity. Qed.

Example coerce_invalid_byte :
  Utf8.coerce (String "255" "a") = String "239" (String "191" (String "189" "a")).
Proof. vm_compute. reflexivity. Qed.

Example fnv32a_a : fnv32a "a" = 3826002220.
Proof. vm_compute. reflexivity. Qed.

Example shardIndex_default :
  ∃ h, NewHub None = Done h ∧ shardCount h = 16 ∧
       shardIndex h "conn_1" = Done (fnv32a "conn_1" mod 16).
Proof. eexists. split; [vm_compute; reflexivity|]. split; reflexivity. Qed.

Example ValidateConfig_default : ValidateConfig (Some DefaultConfig) = None.
Proof. reflexivity. Qed.

(** The answers the handlers send always encode. *)
Lemma Marshal_response ty (d : any) t :
  d = ANil ∨ (∃ s, d = AString s) →
  is_Some (MessageJson.Marshal (mkMessage ty d t "" "" "")).
Proof.
  unfold MessageJson.Marshal. intros [->|[s ->]]; simpl; eauto.
Qed.

(** ** The user and group indices *)

Lemma range_elem {V} (m : gmap string V) k : k ∈ range m ↔ is_Some (m !! k).
Proof.
  unfold range. rewrite list_elem_of_fmap. split.
  - intros ([k' v] & -> & H). apply elem_of_map_to_list in H. by exists v.
  - intros [v H]. exists (k, v). split; [done|]. by apply elem_of_map_to_list.
Qed.

Lemma range_NoDup {V} (m : gmap string V) : NoDup (range m).
Proof. apply NoDup_fst_map_to_list. Qed.

Lemma index_add_lookup k id idx g :
  index_add k id idx !! g
  = if decide (g = k) then Some (including id (idx !! k)) else idx !! g.
Proof.
  unfold index_add. case_decide as Hg.
  - subst. by rewrite lookup_insert_eq.
  - by rewrite lookup_insert_ne.
Qed.

Lemma index_remove_lookup k id idx g :
  index_remove k id idx !! g
  = if decide (g = k) then without id (idx !! k) else idx !! g.
Proof.
  unfold index_remove, without. destruct (idx !! k) as [m|] eqn:Hk; simpl.
  - destruct (decide (size (delete id m) = 0%nat)); case_decide as Hg; subst.
    + by rewrite lookup_delete_eq.
    + by rewrite lookup_delete_ne.
    + by rewrite lookup_insert_eq.
    + by rewrite lookup_insert_ne.
  - case_decide; by subst.
Qed.

Lemma without_without id entry : without id (without id entry) = without id entry.
Proof.
  unfold without. destruct entry as [m|]; simpl; [|done].
  destruct (decide (size (delete id m) = 0%nat)) as [Hz|Hz]; simpl; [done|].
  rewrite delete_delete_eq. by rewrite decide_False.
Qed.

(** What is left of an entry never lists [id], and is never empty. *)
Lemma without_spec id entry m :
  without id entry = Some m →
  m !! id = None ∧ m ≠ ∅ ∧ ∃ m0, entry = Some m0 ∧ m = delete id m0.
Proof.
  unfold without. destruct entry as [m0|]; simpl; [|done].
  destruct (decide (size (delete id m0) = 0%nat)) as [Hz|Hz]; [done|].
  intros [= <-]. split; [apply lookup_delete_eq|]. split; [|eauto].
  intros Hm. by rewrite Hm, map_size_empty in Hz.
Qed.

Lemma without_None id entry :
  without id entry = None ↔ ∀ m, entry = Some m → delete id m = ∅.
Proof.
  unfold without. destruct entry as [m0|]; simpl; [|naive_solver].
  destruct (decide (size (delete id m0) = 0%nat)) as [Hz|Hz]; split; try done.
  - intros _ m [= <-]. by apply map_size_empty_inv.
  - intros H. destruct Hz. by rewrite (H m0), map_size_empty.
Qed.

Lemma foldl_index_add_lookup id (gs : list string) idx g :
  foldl (λ idx group, index_add group id idx) idx gs !! g
  = if decide (g ∈ gs) then Some (including id (idx !! g)) else idx !! g.
Proof.
  revert idx. induction gs as [|k gs IH]; intros idx; simpl; [done|].
  rewrite IH, index_add_lookup.
  destruct (decide (g ∈ gs)) as [Hin|Hin], (decide (g = k)) as [->|Hk],
    (decide (_ ∈ k :: gs)) as [Hc|Hc]; try done.
  all: try (exfalso;
            first [ by apply Hc; right | by apply Hc; left
                  | by apply elem_of_cons in Hc as [?|?] ]).
  f_equal. unfold including. simpl. by rewrite insert_insert_eq.
Qed.

Lemma foldl_index_remove_lookup id (gs : list string) idx g :
  foldl (λ idx group, index_remove group id idx) idx gs !! g
  = if decide (g ∈ gs) then without id (idx !! g) else idx !! g.
Proof.
  revert idx. induction gs as [|k gs IH]; intros idx; simpl; [done|].
  rewrite IH, index_remove_lookup.
  destruct (decide (g ∈ gs)) as [Hin|Hin], (decide (g = k)) as [->|Hk],
    (decide (_ ∈ k :: gs)) as [Hc|Hc]; try done.
  all: try (exfalso;
            first [ by apply Hc; right | by apply Hc; left
                  | by apply elem_of_cons in Hc as [?|?] ]).
  apply without_without.
Qed.

(** ** Registration and the connection limit *)

Lemma Conn_Close_registry p w w' : Conn_Close p w = Done w' → registry w' = registry w.
Proof. unfold Conn_Close. intros H. cases H. done. Qed.

Lemma trySend_registry E p d onDrop w w' :
  (∀ w, registry (onDrop w) = registry w) →
  trySend E p d onDrop w = Done w' → registry w' = registry w.
Proof.
  intros Hd H. unfold trySend in H. cases H; try done.
  all: try (apply Conn_Close_registry in H; rewrite H, Hd; done).
  all: try (rewrite Hd; done).
Qed.

Lemma logf_registry e w : registry (logf e w) = registry w.
Proof. done. Qed.

Lemma store_registry p c w : registry (store p c w) = registry w.
Proof. done. Qed.

Lemma send_if_alive_registry E d entry connID w w' :
  send_if_alive E d entry connID w = Done w' → registry w' = registry w.
Proof.
  unfold send_if_alive. intros H. cases H; try done.
  eapply trySend_registry; [|done]. done.
Qed.

Lemma for_each_registry {A} (body : A → World → outcome World) l w w' :
  (∀ x w w', body x w = Done w' → registry w' = registry w) →
  for_each body l w = Done w' → registry w' = registry w.
Proof.
  intros Hbody H.
  apply (for_each_inv (λ v, registry v = registry w) body l w w'); [|done|done].
  intros x s s' _ Hs Hb. by rewrite (Hbody _ _ _ Hb).
Qed.

Lemma sendToUser_registry E u d w w' :
  sendToUser E u d w = Done w' → registry w' = registry w.
Proof.
  unfold sendToUser. intros H. cases H; [|done].
  eapply for_each_registry; [|done]. intros; by eapply send_if_alive_registry.
Qed.

Lemma sendToGroup_registry E g d w w' :
  sendToGroup E g d w = Done w' → registry w' = registry w.
Proof.
  unfold sendToGroup. intros H. cases H; [|done].
  eapply for_each_registry; [|done]. intros; by eapply send_if_alive_registry.
Qed.

Lemma enqueueBroadcastAll_registry d w w' :
  enqueueBroadcastAll d w = Done w' → registry w' = registry w.
Proof.
  unfold enqueueBroadcastAll. intros H.
  eapply for_each_registry; [|done]. intros x v v' Hb. cases Hb; done.
Qed.

Lemma broadcastWorker_registry E job w w' :
  broadcastWorker E job w = Done w' → registry w' = registry w.
Proof.
  unfold broadcastWorker. intros H. cases H; [|done].
  eapply for_each_registry; [|done]. intros x v v' Hb. cases Hb; [|done].
  eapply trySend_registry; [|done]. done.
Qed.

Lemma checkHeartbeats_registry w w' :
  checkHeartbeats w = Done w' → registry w' = registry w.
Proof.
  unfold checkHeartbeats. intros H.
  eapply for_each_registry; [|done]. intros x v v' Hb. cases Hb; [|done].
  by apply Conn_Close_registry in Hb.
Qed.

Lemma dispatch_registry E m w w' :
  dispatch E m w = Done w' → registry w' = registry w.
Proof.
  unfold dispatch. intros H. cases H;
    first [ done | by eapply sendToUser_registry | by eapply sendToGroup_registry
          | by eapply enqueueBroadcastAll_registry ].
Qed.

Lemma respond_registry p m w w' : respond p m w = Done w' → registry w' = registry w.
Proof. unfold respond. intros H. cases H; done. Qed.

Lemma JoinGroup_registry p g w w' : JoinGroup p g w = Done w' → registry w' = registry w.
Proof. unfold JoinGroup. intros H. cases H; done. Qed.

Lemma LeaveGroup_registry p g w w' : LeaveGroup p g w = Done w' → registry w' = registry w.
Proof. unfold LeaveGroup. intros H. cases H; done. Qed.

Lemma submit_registry m w w' : submit m w = Done w' → registry w' = registry w.
Proof. unfold submit. intros H. cases H; done. Qed.

Lemma handleMessage_registry p f w w' :
  handleMessage p f w = Done w' → registry w' = registry w.
Proof.
  unfold handleMessage, handlePing, handleJoinGroup, handleLeaveGroup, handleChat,
    handleNotification, handleStatus.
  intros H. cases H; try done.
  all: repeat match goal with
       | H : respond _ _ _ = Done _ |- _ => apply respond_registry in H
       | H : JoinGroup _ _ _ = Done _ |- _ => apply JoinGroup_registry in H
       | H : LeaveGroup _ _ _ = Done _ |- _ => apply LeaveGroup_registry in H
       | H : submit _ _ = Done _ |- _ => apply submit_registry in H
       end.
  all: rewrite ?logf_registry, ?store_registry in *; congruence.
Qed.

Lemma writePump_registry p w w' : writePump p w = Done w' → registry w' = registry w.
Proof.
  unfold writePump. intros H. cases H; [|done]. by apply Conn_Close_registry in H.
Qed.

(** Registering below the limit: one more entry, one more on the counter. *)
Lemma registerConnection_registry p w w' :
  registerConnection p w = Done w' →
  config (hub w') = config (hub w) ∧
  ((MaxConnections (config (hub w)) ≤ connectionCount (hub w) ∧
    connections (hub w') = connections (hub w) ∧
    connectionCount (hub w') = connectionCount (hub w)) ∨
   (connectionCount (hub w) < MaxConnections (config (hub w)) ∧
    (∃ id, connections (hub w') = <[id := p]> (connections (hub w))) ∧
    connectionCount (hub w') = wrap64 (connectionCount (hub w) + 1))).
Proof.
  unfold registerConnection. intros H. cases H.
  all: lazymatch goal with
       | H : Conn_Close _ _ = Done _ |- _ =>
           apply Conn_Close_registry in H; unfold registry in H; simpl in *;
           injection H as -> -> ->; split; [done|]; left; split; [lia|done]
       | _ => simpl; split; [done|]; right; split; [lia|]; eauto
       end.
Qed.

Lemma unregisterConnection_registry p w w' :
  unregisterConnection p w = Done w' →
  config (hub w') = config (hub w) ∧
  (registry w' = registry w ∨
   (∃ id, is_Some (connections (hub w) !! id) ∧
          connections (hub w') = delete id (connections (hub w))) ∧
    connectionCount (hub w') = wrap64 (connectionCount (hub w) - 1)).
Proof.
  unfold unregisterConnection. intros H. cases H.
  all: simpl; split; [done|].
  all: first [ by left | right; split; [|done]; eexists; split; [|done]; eauto ].
Qed.

Lemma wrap64_id z : int64 z → wrap64 z = z.
Proof.
  unfold int64, wrap64. intros H.
  rewrite Z.mod_small by lia. lia.
Qed.

Lemma NewHub_config cfg h :
  NewHub (Some cfg) = Done h →
  MaxConnections (config h) = MaxConnections cfg ∧
  connections h = ∅ ∧ connectionCount h = 0.
Proof.
  unfold NewHub. intros H. cases H; done.
Qed.

Lemma within_limit_registry cfg w w' :
  registry w' = registry w → within_limit cfg w → within_limit cfg w'.
Proof.
  unfold registry, within_limit. intros [= -> -> ->]. done.
Qed.

Lemma run_registry E c w w' :
  run E c w = Done w' →
  match c with
  | CaseRegister conn => registerConnection conn w = Done w'
  | CaseUnregister conn => unregisterConnection conn w = Done w'
  | _ => registry w' = registry w
  end.
Proof.
  destruct c; simpl; intros H; try done.
  - cases H. apply dispatch_registry in H. by rewrite H.
  - apply bind_Done in H as (w1 & H1 & H).
    apply checkHeartbeats_registry in H. rewrite H.
    destruct (EnableGlobalPing _); [|by injection H1 as <-].
    eapply for_each_registry; [|done]. intros x v v' Hb. cases Hb; done.
Qed.

Lemma exec_within_limit cfg a w w' :
  int64 (MaxConnections cfg) →
  exec a w = Done w' → within_limit cfg w → within_limit cfg w'.
Proof.
  intros Hmax Hexec Hinv.
  assert (∀ v, registry v = registry w → within_limit cfg v) as Hsame
    by (intros v Hv; by eapply within_limit_registry).
  destruct a; simpl in Hexec.
  - cases Hexec. by apply Hsame.
  - apply run_registry in Hexec. destruct c; [| |by apply Hsame..].
    + apply registerConnection_registry in Hexec as [Hc Hr].
      destruct Hinv as (Hm & Hlo & Hhi). unfold within_limit. rewrite Hc.
      split; [done|].
      destruct Hr as [(_ & -> & ->)|(Hlt & (k & ->) & ->)]; [done|].
      rewrite Hm in Hlt. unfold int64 in Hmax.
      rewrite wrap64_id by (unfold int64; lia).
      pose proof (map_size_insert k conn (connections (hub w))) as Hs.
      destruct (connections (hub w) !! k); simpl in Hs; lia.
    + apply unregisterConnection_registry in Hexec as [Hc Hr].
      destruct Hr as [Hr|[(k & [q Hq] & Hd) Hn]]; [by apply Hsame|].
      destruct Hinv as (Hm & Hlo & Hhi). unfold within_limit.
      rewrite Hc, Hd, Hn. split; [done|].
      pose proof (map_size_delete k (connections (hub w))) as Hs.
      rewrite Hq in Hs.
      assert (size (connections (hub w)) ≠ 0%nat) as Hne.
      { intros Hz. apply map_size_empty_inv in Hz. rewrite Hz in Hq.
        by rewrite lookup_empty in Hq. }
      unfold int64 in Hmax.
      rewrite wrap64_id by (unfold int64; lia). lia.
  - cases Hexec. apply broadcastWorker_registry in Hexec. apply Hsame. by rewrite Hexec.
  - apply handleMessage_registry in Hexec. by apply Hsame.
  - apply JoinGroup_registry in Hexec. by apply Hsame.
  - apply LeaveGroup_registry in Hexec. by apply Hsame.
  - apply submit_registry in Hexec. by apply Hsame.
  - apply writePump_registry in Hexec. by apply Hsame.
  - apply Conn_Close_registry in Hexec. by apply Hsame.
  - cases Hexec. by apply Hsame.
Qed.

Lemma reachable_within_limit cfg w :
  0 ≤ MaxConnections cfg → int64 (MaxConnections cfg) →
  reachable cfg w → within_limit cfg w.
Proof.
  intros H0 Hmax Hr. induction Hr as [h t Hnew|w a w' _ IH Hexec].
  - apply NewHub_config in Hnew as (Hm & Hc & Hn). unfold within_limit. simpl.
    rewrite Hm, Hc, Hn, map_size_empty. lia.
  - by eapply exec_within_limit.
Qed.

Lemma reachable_execs cfg steps w w' :
  reachable cfg w → execs steps w = Done w' → reachable cfg w'.
Proof.
  unfold execs. revert w. induction steps as [|a steps IH]; intros w Hw Hrun.
  - by injection Hrun as <-.
  - simpl in Hrun. apply bind_Done in Hrun as (w1 & H1 & Hrun).
    apply (IH w1); [|done]. by eapply reach_step.
Qed.

Lemma reachable_world_after cfg steps w :
  world_after cfg steps = Done w → reachable cfg w.
Proof.
  unfold world_after. intros H. apply bind_Done in H as (h & Hh & H).
  eapply reachable_execs; [|done]. by apply reach_new.
Qed.

(** C1. When the counter has reached [MaxConnections], [registerConnection]
    closes the transport of the connection it was given and returns with the
    hub as it was: id map, user index, group index, shard table and counter
    are all unchanged, and the connection object differs only in its closed
    transport. Consequently, in every world a hub built from a configuration
    with a non-negative limit can reach, the number of entries of the id map
    is at most the counter, and the counter is at most the limit. *)
Theorem registerConnection_at_limit :
  (∀ w p c,
     heap w !! p = Some c →
     MaxConnections (config (hub w)) ≤ connectionCount (hub w) →
     ∃ w', registerConnection p w = Done w' ∧
           hub w' = hub w ∧
           heap w' = <[p := with_Conn (mkConn true) c]> (heap w)) ∧
  (∀ cfg w,
     0 ≤ MaxConnections cfg < 2 ^ 63 →
     reachable cfg w →
     MaxConnections (config (hub w)) = MaxConnections cfg ∧
     Z.of_nat (size (connections (hub w))) ≤ connectionCount (hub w) ∧
     connectionCount (hub w) ≤ MaxConnections cfg).
Proof.
  split.
  - intros w p c Hp Hfull. unfold registerConnection, deref. rewrite Hp. simpl.
    apply Z.leb_le in Hfull. rewrite Hfull. simpl.
    unfold Conn_Close, deref. rewrite Hp. simpl. eauto.
  - intros cfg w Hmax Hr.
    destruct (reachable_within_limit cfg w) as (? & ? & ?);
      [lia|unfold int64; lia|done|done].
Qed.

Lemma registerConnection_at_limit_witness :
  (∃ w', registerConnection 2%nat full_world = Done w' ∧
         hub w' = hub full_world ∧
         heap w' = <[2%nat := with_Conn (mkConn true) (fresh_conn "conn_2" "u2" 1 0)]>
                     (heap full_world)) ∧
  (MaxConnections (config (hub full_world)) = 1 ∧
   Z.of_nat (size (connections (hub full_world))) ≤ connectionCount (hub full_world) ∧
   connectionCount (hub full_world) ≤ 1).
Proof.
  split.
  - apply (proj1 registerConnection_at_limit full_world 2%nat
             (fresh_conn "conn_2" "u2" 1 0)).
    + vm_compute. reflexivity.
    + vm_compute. discriminate.
  - apply (proj2 registerConnection_at_limit (small_config 1 1 true false 0) full_world).
    + vm_compute. split; [discriminate | reflexivity].
    + apply (reachable_world_after _ full_steps). vm_compute. reflexivity.
Defined.

(** ** Backpressure *)

Lemma try_send_open {A} (c : Chan.t A) x :
  Chan.closed c = false →
  Chan.try_send c x = Done (if Chan.full c then None else Some (Chan.push c x)).
Proof. unfold Chan.try_send. intros ->. by destruct (Chan.full c). Qed.

Lemma with_now_0 w : with_now (now w + 0) w = w.
Proof. destruct w. unfold with_now. simpl. f_equal. lia. Qed.




(** ** Validation of the configuration *)

Lemma ValidateConfig_rejects cfg :
  heartbeat_not_below_timeout cfg ∨ backpressure_without_timeout cfg →
  ValidateConfig (Some cfg) ≠ None.
Proof.
  unfold heartbeat_not_below_timeout, backpressure_without_timeout, ValidateConfig.
  intros H.
  repeat match goal with
  | |- (if ?b then _ else _) ≠ None => destruct b eqn:?; [discriminate|]
  end.
  exfalso. destruct H as [H|[Hc Ht]].
  - apply Z.leb_le in H. congruence.
  - apply Z.leb_le in Ht.
    match goal with
    | E : CloseOnBackpressure cfg && _ = false |- _ => rewrite Hc, Ht in E; discriminate
    end.
Qed.

Lemma NewHub_Done cfg :
  0 ≤ MessageQueueSize cfg →
  ∃ h, NewHub (Some cfg) = Done h ∧
       MaxConnections (config h) = MaxConnections cfg ∧
       HeartbeatInterval (config h) = HeartbeatInterval cfg ∧
       ConnectionTimeout (config h) = ConnectionTimeout cfg ∧
       CloseOnBackpressure (config h) = CloseOnBackpressure cfg ∧
       SendTimeout (config h) = SendTimeout cfg.
Proof.
  intros Hq. unfold NewHub, Chan.make. simpl.
  assert ((MessageQueueSize cfg <? 0) = false) as Hq' by (apply Z.ltb_ge; lia).
  rewrite Hq'. simpl.
  assert (∀ c, MessageQueueSize c = MessageQueueSize cfg →
               (MessageQueueSize (if BroadcastWorkerCount c <=? 0
                                  then with_BroadcastWorkerCount 1 c else c) <? 0) = false)
    as Hb by (intros c Hc; destruct (BroadcastWorkerCount c <=? 0); simpl; by rewrite Hc).
  destruct (ShardCount cfg <=? 0) eqn:Hs; rewrite Hb by done; simpl.
  all: repeat match goal with
       | |- context [if ?b then _ else _] => destruct b eqn:?; simpl
       end; try lia; eauto 10.
Qed.

(** C4, as the code has it. [ValidateConfig] returns an error for every
    configuration whose heartbeat interval is not below the connection
    timeout and for every configuration that closes on backpressure without a
    positive send timeout. [NewHub] does not validate: from any configuration
    with a non-negative message-queue size it builds a hub that keeps these
    settings, and whose loop starts whenever the heartbeat interval is
    positive. *)
Theorem ValidateConfig_rejects_NewHub_accepts cfg :
  0 ≤ MessageQueueSize cfg →
  (heartbeat_not_below_timeout cfg ∨ backpressure_without_timeout cfg →
   ValidateConfig (Some cfg) ≠ None) ∧
  ∃ h, NewHub (Some cfg) = Done h ∧
       HeartbeatInterval (config h) = HeartbeatInterval cfg ∧
       ConnectionTimeout (config h) = ConnectionTimeout cfg ∧
       CloseOnBackpressure (config h) = CloseOnBackpressure cfg ∧
       SendTimeout (config h) = SendTimeout cfg ∧
       (0 < HeartbeatInterval cfg → run_ticker h = Done ()).
Proof.
  intros Hq. split; [apply ValidateConfig_rejects|].
  destruct (NewHub_Done cfg Hq) as (h & Hh & _ & Hi & Ht & Hc & Hs).
  exists h. repeat split; try done.
  intros Hpos. unfold run_ticker. rewrite Hi.
  by destruct (Z.leb_spec (HeartbeatInterval cfg) 0); [lia|].
Qed.

Lemma ValidateConfig_rejects_NewHub_accepts_witness :
  ValidateConfig (Some slow_heartbeat_config) ≠ None ∧
  ∃ h, NewHub (Some slow_heartbeat_config) = Done h ∧
       HeartbeatInterval (config h) = 60 * Second ∧
       ConnectionTimeout (config h) = 30 * Second ∧
       run_ticker h = Done ().
Proof.
  destruct (ValidateConfig_rejects_NewHub_accepts slow_heartbeat_config)
    as (Hv & h & Hh & Hi & Ht & _ & _ & Hr).
  - vm_compute. discriminate.
  - split.
    + apply Hv. left. vm_compute. discriminate.
    + exists h. repeat split; try done. apply Hr. reflexivity.
Defined.

(** The claim as stated fails: a heartbeat interval of 60s with a connection
    timeout of 30s is rejected by [ValidateConfig], and yet [NewHub] builds a
    hub with it, the loop starts, and the hub registers a connection. *)
Lemma NewHub_runs_invalid_config :
  heartbeat_not_below_timeout slow_heartbeat_config ∧
  ValidateConfig (Some slow_heartbeat_config) = Some ErrHeartbeatNotBelowTimeout ∧
  ∃ h w,
    NewHub (Some slow_heartbeat_config) = Done h ∧
    config h = slow_heartbeat_config ∧
    run_ticker h = Done () ∧
    run idle (CaseRegister 1%nat)
        (mkWorld h {[1%nat := fresh_conn "conn_1" "u1" 256 0]} 0 []) = Done w ∧
    connections (hub w) !! "conn_1" = Some 1%nat ∧
    connectionCount (hub w) = 1.
Proof.
  split; [vm_compute; discriminate|]. split; [reflexivity|].
  eexists. eexists. split; [vm_compute; reflexivity|].
  split; [reflexivity|]. split; [reflexivity|].
  split; [vm_compute; reflexivity|]. split; vm_compute; reflexivity.
Qed.

(** ** The heartbeat scan *)

Lemma checkHeartbeats_unfold w :
  checkHeartbeats w
  = for_each (heartbeat_body (now w)) (map_to_list (connections (hub w))) w.
Proof. reflexivity. Qed.

Lemma scanned_ext w seen seen' s :
  (∀ q, q ∈ seen ↔ q ∈ seen') → scanned w seen s → scanned w seen' s.
Proof.
  intros Heq (Hh & Hn & Hq). split; [done|]. split; [done|].
  intros q. rewrite Hq. destruct (heap w !! q); [simpl|done].
  by rewrite (bool_decide_ext _ _ (Heq q)).
Qed.

Lemma heartbeat_body_scanned w seen id p s :
  is_Some (heap w !! p) →
  scanned w seen s →
  ∃ s', heartbeat_body (now w) (id, p) s = Done s' ∧ scanned w (seen ++ [p]) s'.
Proof.
  intros [c Hc] (Hh & Hn & Hq).
  pose proof (Hq p) as Hp. rewrite Hc in Hp. simpl in Hp.
  unfold heartbeat_body, deref. simpl. rewrite Hp. simpl. rewrite Hh.
  assert (LastPing (if bool_decide (p ∈ seen) && expired w c then evicted c else c)
          = LastPing c) as -> by (by case_match).
  fold (expired w c).
  assert (∀ q, q ≠ p → bool_decide (q ∈ seen ++ [p]) = bool_decide (q ∈ seen)) as Hother.
  { intros q Hne. apply bool_decide_ext.
    rewrite elem_of_app, list_elem_of_singleton. tauto. }
  assert (bool_decide (p ∈ seen ++ [p]) = true) as Hself.
  { apply bool_decide_eq_true_2. apply elem_of_app. right. by left. }
  destruct (expired w c) eqn:Hexp.
  - unfold Conn_Close, deref. simpl. rewrite lookup_insert_eq. simpl.
    eexists. split; [done|]. split; [done|]. split; [done|].
    intros q. simpl. rewrite insert_insert_eq.
    destruct (decide (q = p)) as [->|Hne].
    + rewrite lookup_insert_eq, Hc, Hself. simpl. rewrite Hexp.
      by destruct (bool_decide (p ∈ seen)).
    + rewrite lookup_insert_ne by done. rewrite Hq.
      destruct (heap w !! q); [simpl|done]. by rewrite Hother.
  - exists s. split; [done|]. split; [done|]. split; [done|].
    intros q. rewrite Hq. destruct (heap w !! q) as [cq|] eqn:Hcq; [simpl|done].
    destruct (decide (q = p)) as [->|Hne].
    + assert (cq = c) as -> by congruence. by rewrite Hexp, !andb_false_r.
    + by rewrite Hother.
Qed.

Lemma heartbeat_loop_scanned w (l : list (string * ptr)) :
  ∀ seen s,
    (∀ kv, kv ∈ l → is_Some (heap w !! kv.2)) →
    scanned w seen s →
    ∃ s', for_each (heartbeat_body (now w)) l s = Done s' ∧
          scanned w (seen ++ l.*2) s'.
Proof.
  induction l as [|[id p] l IH]; intros seen s Hin Hs.
  - exists s. split; [done|]. simpl. by rewrite app_nil_r.
  - destruct (heartbeat_body_scanned w seen id p s) as (s1 & H1 & Hs1); [|done|].
    { apply (Hin (id, p)). by left. }
    destruct (IH (seen ++ [p]) s1) as (s' & Hs' & Hsc); [|done|].
    { intros kv Hkv. apply Hin. by right. }
    exists s'. rewrite for_each_cons, H1. split; [done|].
    simpl. by rewrite <- (assoc_L (++)) in Hsc.
Qed.

(** C5. A scan of a hub whose id map points at live objects returns. It
    leaves the hub and the clock as they were. Of the connections in the
    store, it marks not alive and closes the transport of exactly those that
    are in the id map and whose last heartbeat lies further back than the
    connection timeout, measured at the time of the scan; every other
    connection is left as it was. *)
Theorem checkHeartbeats_evicts_expired w :
  (∀ id p, connections (hub w) !! id = Some p → is_Some (heap w !! p)) →
  ∃ w',
    checkHeartbeats w = Done w' ∧
    hub w' = hub w ∧
    now w' = now w ∧
    dom (heap w') = dom (heap w) ∧
    ∀ q c, heap w !! q = Some c →
      (registered w q → expired w c = true →
         heap w' !! q = Some (evicted c) ∧
         IsAlive (evicted c) = false ∧ ws_closed (Conn (evicted c)) = true) ∧
      (¬ (registered w q ∧ expired w c = true) → heap w' !! q = Some c).
Proof.
  intros Hlive. rewrite checkHeartbeats_unfold.
  destruct (heartbeat_loop_scanned w (map_to_list (connections (hub w))) [] w)
    as (w' & Hrun & Hh & Hn & Hq).
  { intros [id p] Hkv. apply elem_of_map_to_list in Hkv. by eapply Hlive. }
  { split; [done|]. split; [done|]. intros q.
    destruct (heap w !! q); [simpl|done]. f_equal. }
  exists w'. split; [done|]. split; [done|]. split; [done|].
  simpl in Hq.
  assert (∀ q, q ∈ (map_to_list (connections (hub w))).*2 ↔ registered w q) as Hreg.
  { intros q. unfold registered. rewrite list_elem_of_fmap. split.
    - intros ([id p] & -> & Hkv). apply elem_of_map_to_list in Hkv. by exists id.
    - intros (id & Hid). exists (id, q). split; [done|]. by apply elem_of_map_to_list. }
  split.
  - apply set_eq. intros q. rewrite !elem_of_dom, Hq.
    destruct (heap w !! q); simpl; split; intros [? ?]; done.
  - intros q c Hc. rewrite Hq, Hc. simpl. split.
    + intros Hr Hexp. rewrite Hexp.
      rewrite bool_decide_eq_true_2 by (by apply Hreg). done.
    + intros Hnot. destruct (bool_decide _) eqn:Hb; [|done].
      apply bool_decide_eq_true_1, Hreg in Hb.
      destruct (expired w c) eqn:Hexp; [|done]. destruct Hnot. done.
Qed.

Lemma checkHeartbeats_evicts_expired_witness :
  ∃ w',
    checkHeartbeats heartbeat_world = Done w' ∧
    hub w' = hub heartbeat_world ∧
    heap w' !! 1%nat = Some (evicted (fresh_conn "conn_1" "u1" 1 0)) ∧
    heap w' !! 2%nat = heap heartbeat_world !! 2%nat.
Proof.
  destruct (checkHeartbeats_evicts_expired heartbeat_world)
    as (w' & Hrun & Hhub & _ & _ & Hq).
  - apply (bool_decide_unpack
             (map_Forall (λ _ p, is_Some (heap heartbeat_world !! p))
                         (connections (hub heartbeat_world)))).
    vm_compute. exact I.
  - exists w'. split; [done|]. split; [done|]. split.
    + apply (Hq 1%nat (fresh_conn "conn_1" "u1" 1 0)).
      * vm_compute. reflexivity.
      * exists "conn_1". vm_compute. reflexivity.
      * vm_compute. reflexivity.
    + destruct (heap heartbeat_world !! 2%nat) as [c|] eqn:Hc; [|by vm_compute in Hc].
      apply (Hq 2%nat c Hc). intros [_ Hexp].
      assert (LastPing c = 61 * Second) as Hlp.
      { vm_compute in Hc. injection Hc as <-. reflexivity. }
      unfold expired in Hexp. rewrite Hlp in Hexp. vm_compute in Hexp. discriminate.
Defined.

(** ** Unregistration *)

Lemma shardIndex_ok h id :
  shards_ok h → ∃ sh, shardIndex h id = Done sh ∧ 0 ≤ sh < shardCount h.
Proof.
  intros [Hc Hl]. unfold shardIndex.
  destruct (Z.leb_spec (shardCount h) 1) as [H1|H1].
  - exists 0. split; [done|lia].
  - rewrite (Z.mod_small (shardCount h)) by lia.
    destruct (Z.eqb_spec (shardCount h) 0) as [H0|H0]; [lia|].
    eexists. split; [done|]. apply Z.mod_pos_bound. lia.
Qed.

Lemma shard_update_ok f sh (l : list (gmap string ptr)) :
  0 ≤ sh < Z.of_nat (length l) →
  ∃ m, l !! Z.to_nat sh = Some m ∧
       shard_update f sh l = Done (<[Z.to_nat sh := f m]> l).
Proof.
  intros Hsh. unfold shard_update, shard_at.
  destruct (Z.ltb_spec sh 0) as [?|_]; [lia|].
  destruct (lookup_lt_is_Some_2 l (Z.to_nat sh)) as [m Hm]; [lia|].
  exists m. by rewrite Hm.
Qed.

(** A second [unregisterConnection] finds the id gone and changes nothing. *)
Lemma unregisterConnection_again p w w1 :
  unregisterConnection p w = Done w1 → unregisterConnection p w1 = Done w1.
Proof.
  intros H. pose proof H as Hcopy. unfold unregisterConnection in H. cases H.
  all: first
    [ done
    | unfold unregisterConnection, deref; simpl; rewrite lookup_insert_eq; simpl;
      by rewrite lookup_delete_eq ].
Qed.


Lemma joined_world_indices :
  heap joined_world !! 1%nat = Some joined_conn ∧
  connections (hub joined_world) = {["conn_1" := 1%nat]} ∧
  userConnections (hub joined_world) = {["u1" := {["conn_1" := true]}]} ∧
  groupConnections (hub joined_world) = {["g" := {["conn_1" := true]}]}.
Proof. repeat split; vm_compute; reflexivity. Qed.


(** ** Connection objects keep their identity *)

Lemma ids_lookup w p c : heap w !! p = Some c → ids w !! p = Some (ID c, UserID c).
Proof. unfold ids. rewrite lookup_fmap. by intros ->. Qed.

Lemma ids_lookup_inv w p i u :
  ids w !! p = Some (i, u) → ∃ c, heap w !! p = Some c ∧ ID c = i ∧ UserID c = u.
Proof.
  unfold ids. rewrite lookup_fmap. destruct (heap w !! p) as [c|]; [|done].
  intros [= <- <-]. eauto.
Qed.

Lemma ids_store w p c c' :
  heap w !! p = Some c → ID c' = ID c → UserID c' = UserID c →
  ids (store p c' w) = ids w.
Proof.
  intros Hp Hi Hu. unfold ids, store. simpl. rewrite fmap_insert, Hi, Hu.
  apply insert_id. rewrite lookup_fmap, Hp. done.
Qed.

Lemma ids_logf e w : ids (logf e w) = ids w.
Proof. done. Qed.

Lemma ids_store_new w p c :
  heap w !! p = None → ids w ⊆ ids (store p c w).
Proof.
  intros Hp. unfold ids, store. simpl. rewrite fmap_insert.
  apply insert_subseteq. by rewrite lookup_fmap, Hp.
Qed.

(** Closing off the goals [cases] leaves behind. *)
Ltac ids_tac :=
  repeat match goal with
  | H : deref _ _ = Done _ |- _ => apply deref_Done in H
  end;
  unfold ids, store; simpl; rewrite ?fmap_insert; simpl; rewrite ?insert_insert_eq;
  first
    [ done
    | apply insert_id; rewrite lookup_fmap;
      match goal with
      | H : heap _ !! _ = Some _ |- _ => by rewrite H
      end ].

Lemma Conn_Close_ids p w w' : Conn_Close p w = Done w' → ids w' = ids w.
Proof. unfold Conn_Close. intros H. cases H. ids_tac. Qed.

Lemma for_each_ids {A} (body : A → World → outcome World) l w w' :
  (∀ x w w', body x w = Done w' → ids w' = ids w) →
  for_each body l w = Done w' → ids w' = ids w.
Proof.
  intros Hbody H.
  apply (for_each_inv (λ v, ids v = ids w) body l w w'); [|done|done].
  intros x s s' _ Hs Hb. by rewrite (Hbody _ _ _ Hb).
Qed.

Lemma trySend_ids E p d onDrop w w' :
  (∀ w, ids (onDrop w) = ids w) →
  trySend E p d onDrop w = Done w' → ids w' = ids w.
Proof.
  intros Hd H. unfold trySend in H. cases H.
  all: try match goal with
       | H : Conn_Close _ _ = Done _ |- _ => apply Conn_Close_ids in H; rewrite H, Hd
       end.
  all: rewrite ?Hd; try done; ids_tac.
Qed.

Lemma send_if_alive_ids E d entry connID w w' :
  send_if_alive E d entry connID w = Done w' → ids w' = ids w.
Proof.
  unfold send_if_alive. intros H. cases H; try done.
  eapply trySend_ids; [|done]. done.
Qed.

Lemma dispatch_ids E m w w' : dispatch E m w = Done w' → ids w' = ids w.
Proof.
  unfold dispatch, sendToUser, sendToGroup, enqueueBroadcastAll. intros H. cases H;
    first [ done | eapply for_each_ids; [|done] ].
  all: intros x v v' Hb; first [ by eapply send_if_alive_ids | cases Hb; done ].
Qed.

Lemma broadcastWorker_ids E job w w' :
  broadcastWorker E job w = Done w' → ids w' = ids w.
Proof.
  unfold broadcastWorker. intros H. cases H; [|done].
  eapply for_each_ids; [|done]. intros x v v' Hb. cases Hb; [|done].
  eapply trySend_ids; [|done]. done.
Qed.

Lemma checkHeartbeats_ids w w' : checkHeartbeats w = Done w' → ids w' = ids w.
Proof.
  unfold checkHeartbeats. intros H.
  eapply for_each_ids; [|done]. intros x v v' Hb. cases Hb; [|done].
  apply Conn_Close_ids in Hb. rewrite Hb. ids_tac.
Qed.

Lemma registerConnection_ids p w w' :
  registerConnection p w = Done w' → ids w' = ids w.
Proof.
  unfold registerConnection. intros H. cases H; try done.
  all: match goal with
       | H : Conn_Close _ _ = Done _ |- _ => by apply Conn_Close_ids in H
       end.
Qed.

Lemma unregisterConnection_ids p w w' :
  unregisterConnection p w = Done w' → ids w' = ids w.
Proof. unfold unregisterConnection. intros H. cases H; ids_tac. Qed.

Lemma run_ids E c w w' : run E c w = Done w' → ids w' = ids w.
Proof.
  destruct c; simpl; intros H.
  - by apply registerConnection_ids in H.
  - by apply unregisterConnection_ids in H.
  - cases H. by apply dispatch_ids in H.
  - apply bind_Done in H as (w1 & H1 & H).
    apply checkHeartbeats_ids in H. rewrite H.
    destruct (EnableGlobalPing _); [|by injection H1 as <-].
    eapply for_each_ids; [|done]. intros x v v' Hb. cases Hb; done.
Qed.

Lemma respond_ids p m w w' : respond p m w = Done w' → ids w' = ids w.
Proof. unfold respond. intros H. cases H; ids_tac. Qed.

Lemma JoinGroup_ids p g w w' : JoinGroup p g w = Done w' → ids w' = ids w.
Proof.
  unfold JoinGroup. intros H. cases H. ids_tac.
Qed.

Lemma LeaveGroup_ids p g w w' : LeaveGroup p g w = Done w' → ids w' = ids w.
Proof.
  unfold LeaveGroup. intros H. cases H. ids_tac.
Qed.

Lemma submit_ids m w w' : submit m w = Done w' → ids w' = ids w.
Proof. unfold submit. intros H. cases H; done. Qed.

Lemma handleMessage_ids p f w w' : handleMessage p f w = Done w' → ids w' = ids w.
Proof.
  unfold handleMessage, handlePing, handleJoinGroup, handleLeaveGroup, handleChat,
    handleNotification, handleStatus.
  intros H. cases H; try done.
  all: repeat match goal with
       | H : respond _ _ _ = Done _ |- _ => apply respond_ids in H
       | H : JoinGroup _ _ _ = Done _ |- _ => apply JoinGroup_ids in H
       | H : LeaveGroup _ _ _ = Done _ |- _ => apply LeaveGroup_ids in H
       | H : submit _ _ = Done _ |- _ => apply submit_ids in H
       end.
  all: rewrite ?ids_logf.
  all: repeat match goal with
       | H : ids _ = ids _ |- _ => rewrite H; clear H
       end.
  all: ids_tac.
Qed.

Lemma writePump_ids p w w' : writePump p w = Done w' → ids w' = ids w.
Proof.
  unfold writePump. intros H. cases H; [|ids_tac]. by apply Conn_Close_ids in H.
Qed.

(** Every step keeps the identity of the objects there are. *)
Lemma exec_ids a w w' : exec a w = Done w' → ids w ⊆ ids w'.
Proof.
  destruct a; simpl; intros H.
  - cases H. by apply ids_store_new.
  - by apply run_ids in H as ->.
  - cases H. by apply broadcastWorker_ids in H as ->.
  - by apply handleMessage_ids in H as ->.
  - by apply JoinGroup_ids in H as ->.
  - by apply LeaveGroup_ids in H as ->.
  - by apply submit_ids in H as ->.
  - by apply writePump_ids in H as ->.
  - by apply Conn_Close_ids in H as ->.
  - cases H. done.
Qed.

Lemma execs_ids steps w w' : execs steps w = Done w' → ids w ⊆ ids w'.
Proof.
  unfold execs. revert w. induction steps as [|a steps IH]; intros w H; simpl in H.
  - by injection H as <-.
  - apply bind_Done in H as (w1 & H1 & H). etrans; [by eapply exec_ids|by apply IH].
Qed.

Lemma execs_same_ID steps w w' p c c' :
  execs steps w = Done w' → heap w !! p = Some c → heap w' !! p = Some c' →
  ID c' = ID c ∧ UserID c' = UserID c.
Proof.
  intros Hrun Hc Hc'. apply execs_ids in Hrun.
  pose proof (lookup_weaken _ _ _ _ (ids_lookup _ _ _ Hc) Hrun) as H.
  rewrite (ids_lookup _ _ _ Hc') in H. by injection H as -> ->.
Qed.

(** ** Joining and leaving a group *)

(** An answer to the client leaves the hub alone and, of the connection,
    touches the queue only. *)
Lemma respond_open p response w c :
  heap w !! p = Some c →
  Chan.closed (Send c) = false →
  ∃ w' ch,
    respond p response w = Done w' ∧
    hub w' = hub w ∧
    now w' = now w ∧
    Chan.closed ch = false ∧
    heap w' = <[p := with_Send ch c]> (heap w).
Proof.
  intros Hp Hopen. unfold respond, deref. rewrite Hp. simpl.
  rewrite try_send_open by done. simpl.
  destruct (Chan.full (Send c)); simpl.
  - exists (logf (LogBufferFull (ID c)) w), (Send c).
    repeat split; try done. simpl. symmetry. apply insert_id. by destruct c.
  - eexists _, _. repeat split; try done.
Qed.

Lemma handleJoinGroup_open p msg g w c :
  Data msg = AString g →
  heap w !! p = Some c →
  Chan.closed (Send c) = false →
  ∃ w' ch,
    handleJoinGroup p msg w = Done w' ∧
    groupConnections (hub w') = index_add g (ID c) (groupConnections (hub w)) ∧
    heap w' = <[p := with_Send ch (with_Groups (<[g := true]> (Groups c)) c)]> (heap w) ∧
    Chan.closed ch = false.
Proof.
  intros Hd Hp Hopen. unfold handleJoinGroup, JoinGroup, deref. rewrite Hd, Hp. simpl.
  edestruct (respond_open p) as (w' & ch & -> & Hh & _ & Hch & Hheap);
    [..|exists (logf (LogJoined (UserID c) g) w'), ch; simpl; rewrite Hh, Hheap].
  - simpl. apply lookup_insert_eq.
  - done.
  - simpl. by rewrite insert_insert_eq.
Qed.

Lemma handleLeaveGroup_open p msg g w c :
  Data msg = AString g →
  heap w !! p = Some c →
  Chan.closed (Send c) = false →
  ∃ w' ch,
    handleLeaveGroup p msg w = Done w' ∧
    groupConnections (hub w') = index_remove g (ID c) (groupConnections (hub w)) ∧
    heap w' = <[p := with_Send ch (with_Groups (delete g (Groups c)) c)]> (heap w) ∧
    Chan.closed ch = false.
Proof.
  intros Hd Hp Hopen. unfold handleLeaveGroup, LeaveGroup, deref. rewrite Hd, Hp. simpl.
  edestruct (respond_open p) as (w' & ch & -> & Hh & _ & Hch & Hheap);
    [..|exists (logf (LogLeft (UserID c) g) w'), ch; simpl; rewrite Hh, Hheap].
  - simpl. apply lookup_insert_eq.
  - done.
  - simpl. by rewrite insert_insert_eq.
Qed.

Lemma respond_hub p response w w' : respond p response w = Done w' → hub w' = hub w.
Proof. unfold respond. intros H. cases H; done. Qed.

Lemma handleJoinGroup_Done p msg g w c w' :
  Data msg = AString g →
  heap w !! p = Some c →
  handleJoinGroup p msg w = Done w' →
  groupConnections (hub w') = index_add g (ID c) (groupConnections (hub w)) ∧
  ids w' = ids w.
Proof.
  intros Hd Hp H. unfold handleJoinGroup in H. rewrite Hd in H. cases H.
  assert (r = c) as -> by congruence.
  pose proof (respond_hub _ _ _ _ E1) as Hh. apply respond_ids in E1.
  pose proof (JoinGroup_ids _ _ _ _ E0) as Hi.
  unfold JoinGroup in E0. cases E0. assert (r = c) as -> by congruence.
  simpl. rewrite Hh. split; [done|]. rewrite ids_logf. congruence.
Qed.

(** C7. Let a connection with an open queue join the group [g] by a
    [join_group] frame; the group index then lists its id under [g]. Let the
    system take any steps, after which the connection, its queue still open,
    leaves [g] by a [leave_group] frame. The handler returns, the group index
    no longer lists the id under [g], and the connection's own group set no
    longer holds [g]. An entry that is left is never empty: if the id was the
    only one listed under [g], the index has no entry for [g] any more. *)
Theorem leave_after_join_clears_group p g join leave w0 c0 w1 steps w2 c2 :
  Data join = AString g →
  Data leave = AString g →
  heap w0 !! p = Some c0 →
  handleJoinGroup p join w0 = Done w1 →
  execs steps w1 = Done w2 →
  heap w2 !! p = Some c2 →
  Chan.closed (Send c2) = false →
  listed (groupConnections (hub w1)) g (ID c0) ∧
  ∃ w3 c3,
    handleLeaveGroup p leave w2 = Done w3 ∧
    ¬ listed (groupConnections (hub w3)) g (ID c0) ∧
    heap w3 !! p = Some c3 ∧ ID c3 = ID c0 ∧ Groups c3 !! g = None ∧
    (∀ m, groupConnections (hub w3) !! g = Some m → m ≠ ∅) ∧
    ((∀ id, listed (groupConnections (hub w2)) g id → id = ID c0) →
     groupConnections (hub w3) !! g = None).
Proof.
  intros Hj Hl Hp0 Hjoin Hsteps Hp2 Hopen2.
  destruct (handleJoinGroup_Done _ _ _ _ _ _ Hj Hp0 Hjoin) as [Hg1 Hi1].
  assert (ID c2 = ID c0) as Hid.
  { pose proof (execs_ids _ _ _ Hsteps) as Hsub. rewrite Hi1 in Hsub.
    pose proof (lookup_weaken _ _ _ _ (ids_lookup _ _ _ Hp0) Hsub) as H.
    rewrite (ids_lookup _ _ _ Hp2) in H. by injection H as -> _. }
  split.
  - rewrite Hg1. eexists. rewrite index_add_lookup, decide_True by done.
    split; [done|]. unfold including. rewrite lookup_insert_eq. eauto.
  - destruct (handleLeaveGroup_open p leave g w2 c2) as (w3 & ch & Hrun & Hgroups & Hheap & _);
      [done..|].
    exists w3, (with_Send ch (with_Groups (delete g (Groups c2)) c2)).
    split; [done|]. rewrite Hgroups, Hheap, Hid.
    split; [|split; [apply lookup_insert_eq|split; [done|split; [apply lookup_delete_eq|]]]].
    + intros (m & Hm & Hin). rewrite index_remove_lookup, decide_True in Hm by done.
      apply without_spec in Hm as (Hnone & _). rewrite Hnone in Hin. by destruct Hin.
    + split.
      * intros m Hm. rewrite index_remove_lookup, decide_True in Hm by done.
        by apply without_spec in Hm as (_ & ? & _).
      * intros Honly. rewrite index_remove_lookup, decide_True by done.
        apply without_None. intros m Hm. apply map_eq. intros id.
        rewrite lookup_empty. destruct (decide (id = ID c0)) as [->|Hne].
        -- apply lookup_delete_eq.
        -- rewrite lookup_delete_ne by done.
           destruct (m !! id) eqn:Hmid; [|done].
           destruct Hne. apply Honly. exists m. by rewrite Hmid.
Qed.

Lemma leave_after_join_clears_group_witness :
  listed (groupConnections (hub joined_world)) "g" "conn_1" ∧
  ∃ w3,
    handleLeaveGroup 1%nat (leave_msg "g") joined_world = Done w3 ∧
    ¬ listed (groupConnections (hub w3)) "g" "conn_1" ∧
    groupConnections (hub w3) !! "g" = None.
Proof.
  destruct (leave_after_join_clears_group 1%nat "g" (join_msg "g") (leave_msg "g")
              registered_world (fresh_conn "conn_1" "u1" 2 0)
              joined_world [] joined_world joined_conn)
    as (Hlisted & w3 & c3 & Hrun & Hgone & _ & _ & _ & _ & Hempty).
  - reflexivity.
  - reflexivity.
  - vm_compute. reflexivity.
  - vm_compute. reflexivity.
  - reflexivity.
  - vm_compute. reflexivity.
  - reflexivity.
  - split; [exact Hlisted|]. exists w3. split; [done|]. split; [done|].
    apply Hempty. intros id (m & Hm & Hid).
    destruct joined_world_indices as (_ & _ & _ & Hgroups).
    rewrite Hgroups in Hm. apply lookup_singleton_Some in Hm as [_ <-].
    destruct Hid as [b Hb]. by apply lookup_singleton_Some in Hb as [<- _].
Defined.

(** ** Inbound frames *)

Lemma Conn_Close_hub p w w' : Conn_Close p w = Done w' → hub w' = hub w.
Proof. unfold Conn_Close. intros H. cases H. done. Qed.

Lemma for_each_hub {A} (body : A → World → outcome World) l w w' :
  (∀ x w w', body x w = Done w' → hub w' = hub w) →
  for_each body l w = Done w' → hub w' = hub w.
Proof.
  intros Hbody H.
  apply (for_each_inv (λ v, hub v = hub w) body l w w'); [|done|done].
  intros x s s' _ Hs Hb. by rewrite (Hbody _ _ _ Hb).
Qed.

Lemma trySend_hub E p d onDrop w w' :
  (∀ w, hub (onDrop w) = hub w) →
  trySend E p d onDrop w = Done w' → hub w' = hub w.
Proof.
  intros Hd H. unfold trySend in H. cases H.
  all: try match goal with
       | H : Conn_Close _ _ = Done _ |- _ => apply Conn_Close_hub in H; rewrite H, Hd
       end.
  all: rewrite ?Hd; done.
Qed.

Lemma send_if_alive_hub E d entry connID w w' :
  send_if_alive E d entry connID w = Done w' → hub w' = hub w.
Proof.
  unfold send_if_alive. intros H. cases H; try done.
  eapply trySend_hub; [|done]. done.
Qed.

Lemma sendToUser_hub E u d w w' : sendToUser E u d w = Done w' → hub w' = hub w.
Proof.
  unfold sendToUser. intros H. cases H; [|done].
  eapply for_each_hub; [|done]. intros; by eapply send_if_alive_hub.
Qed.

Lemma sendToGroup_hub E g d w w' : sendToGroup E g d w = Done w' → hub w' = hub w.
Proof.
  unfold sendToGroup. intros H. cases H; [|done].
  eapply for_each_hub; [|done]. intros; by eapply send_if_alive_hub.
Qed.

(** A message with a recipient never reaches [enqueueBroadcastAll]. *)
Lemma dispatch_targeted E m w w' :
  targeted m → dispatch E m w = Done w' → hub w' = hub w.
Proof.
  intros Ht H. unfold dispatch in H.
  assert (∀ z, To (if Timestamp m =? 0 then with_Timestamp z m else m) = To m ∧
               Group (if Timestamp m =? 0 then with_Timestamp z m else m) = Group m)
    as Hsame by (intros z; by destruct (Timestamp m =? 0)).
  destruct (MessageJson.Marshal _) as [d|]; [|by injection H as <-].
  destruct (Hsame (Time_Unix (now w))) as [HTo HGroup].
  rewrite HTo, HGroup in H.
  destruct (decide (To m = "")) as [Hto|Hto].
  - rewrite bool_decide_eq_true_2 in H by done. simpl in H.
    destruct Ht as [?|Hg]; [done|].
    rewrite bool_decide_eq_false_2 in H by done. simpl in H.
    by eapply sendToGroup_hub.
  - rewrite bool_decide_eq_false_2 in H by done. simpl in H.
    by eapply sendToUser_hub.
Qed.

Lemma same_but_From_with_From u m1 m2 :
  same_but_From m1 m2 → with_From u m1 = with_From u m2.
Proof.
  destruct m1, m2. unfold same_but_From, with_From. simpl.
  intros (-> & -> & -> & -> & ->). done.
Qed.

(** The queue of the hub after a frame was handled: as before, or with one
    more message, which carries the user of the connection as its sender. *)
Lemma handleMessage_broadcast p f w c w' :
  heap w !! p = Some c →
  handleMessage p f w = Done w' →
  Chan.buf (broadcast (hub w')) = Chan.buf (broadcast (hub w)) ∨
  ∃ m, MessageJson.Unmarshal f = Some m ∧
       Chan.buf (broadcast (hub w'))
       = Chan.buf (broadcast (hub w)) ++ [with_From (UserID c) m].
Proof.
  intros Hp H. unfold handleMessage in H.
  destruct (MessageJson.Unmarshal f) as [m|] eqn:Hm; [|injection H as <-; by left].
  unfold deref in H. rewrite Hp in H. simpl in H.
  unfold handlePing, handleJoinGroup, handleLeaveGroup, handleChat, handleNotification,
    handleStatus, submit, Chan.send in H.
  cases H.
  all: repeat match goal with
       | H : respond _ _ _ = Done _ |- _ => apply respond_hub in H
       | H : JoinGroup _ _ _ = Done _ |- _ => unfold JoinGroup in H; cases H
       | H : LeaveGroup _ _ _ = Done _ |- _ => unfold LeaveGroup in H; cases H
       end.
  all: repeat match goal with
       | H : (if ?b then _ else _) = Done _ |- _ =>
           destruct b eqn:?; try discriminate H; try injection H as <-
       end.
  all: simpl in *.
  all: first
    [ by left
    | left; match goal with H : hub _ = _ |- _ => by rewrite H end
    | right; eexists; split; [done|done] ].
Qed.

Lemma foldl_set_member_None l : foldl MessageJson.set_member None l = None.
Proof. induction l as [|kv l IH]; [done|]. simpl. apply IH. Qed.

Lemma set_field_same_but_From f v a a' b :
  f ≠ MessageJson.FFrom →
  same_but_From a a' →
  MessageJson.set_field f v a = Some b →
  ∃ b', MessageJson.set_field f v a' = Some b' ∧ same_but_From b b'.
Proof.
  intros Hf (HT & HD & HTs & HTo & HG) H. unfold same_but_From.
  destruct f, v as [| |[z|]| | |]; simpl in *; try done.
  all: try (destruct (is_int64 z); [|done]).
  all: injection H as <-; eexists; split; [done|]; simpl; done.
Qed.

Lemma set_field_From v s a a' b :
  same_but_From a a' →
  MessageJson.set_field MessageJson.FFrom v a = Some b →
  same_but_From b (with_From s a').
Proof.
  intros (HT & HD & HTs & HTo & HG) H. unfold same_but_From.
  destruct v; simpl in *; try done; by injection H as <-.
Qed.

(** Rewriting the [from] members of a frame that decodes changes the sender
    of the decoded message and nothing else. *)
Lemma Unmarshal_replace_from s f m :
  MessageJson.Unmarshal f = Some m →
  ∃ m', MessageJson.Unmarshal (replace_from s f) = Some m' ∧ same_but_From m m'.
Proof.
  destruct f as [| | | | |l]; simpl; try done.
  { intros [= <-]. by exists Message_zero. }
  assert (same_but_From Message_zero Message_zero) as H0 by done.
  revert H0. generalize Message_zero at 1 3. generalize Message_zero.
  induction l as [|[k v] l IH]; intros a' a Ha H; simpl in *.
  - injection H as <-. by exists a'.
  - unfold is_from. destruct (MessageJson.field_of_key k) as [fld|] eqn:Hk.
    + destruct (MessageJson.set_field fld v a) as [b|] eqn:Hb;
        [|by rewrite foldl_set_member_None in H].
      destruct (decide (fld = MessageJson.FFrom)) as [->|Hne].
      * simpl. rewrite Hk. simpl. apply (IH (with_From s a') b); [|done].
        by eapply set_field_From.
      * destruct (set_field_same_but_From fld v a a' b) as (b' & Hb' & Hsame); [done..|].
        assert ((match fld with MessageJson.FFrom => true | _ => false end) = false) as ->
          by (by destruct fld).
        simpl. rewrite Hk, Hb'. by apply (IH b' b).
    + simpl. rewrite Hk. by apply (IH a' a).
Qed.

(** C9. Whatever a frame says in its [from] member, the handler works on a
    message whose sender is the user of the connection: two frames that decode
    to messages differing in [From] at most are handled alike, with the same
    outcome and the same world afterwards (hub, connection objects, queues,
    clock and log); in particular a frame is handled like the same frame with
    any other string in its [from] members; and any message the handler puts
    on the queue of the hub has the connection's own user as its sender. *)
Theorem handleMessage_ignores_from p w c f1 f2 m1 m2 :
  heap w !! p = Some c →
  MessageJson.Unmarshal f1 = Some m1 →
  MessageJson.Unmarshal f2 = Some m2 →
  same_but_From m1 m2 →
  handleMessage p f1 w = handleMessage p f2 w ∧
  (∀ s, handleMessage p (replace_from s f1) w = handleMessage p f1 w) ∧
  ∀ w', handleMessage p f1 w = Done w' →
    ∀ msg, msg ∈ Chan.buf (broadcast (hub w')) →
      msg ∈ Chan.buf (broadcast (hub w)) ∨
      (msg = with_From (UserID c) m1 ∧ From msg = UserID c).
Proof.
  intros Hp H1 H2 Hsame.
  assert (∀ g1 g2 n1 n2,
            MessageJson.Unmarshal g1 = Some n1 → MessageJson.Unmarshal g2 = Some n2 →
            same_but_From n1 n2 → handleMessage p g1 w = handleMessage p g2 w) as Halike.
  { intros g1 g2 n1 n2 Hg1 Hg2 Hn. unfold handleMessage, deref.
    rewrite Hg1, Hg2, Hp. simpl.
    by rewrite (same_but_From_with_From (UserID c) n1 n2 Hn), (proj1 Hn). }
  split; [by eapply Halike|]. split.
  - intros s. destruct (Unmarshal_replace_from s f1 m1 H1) as (m' & Hm' & Hs).
    symmetry. by eapply Halike.
  - intros w' Hrun msg Hin.
    destruct (handleMessage_broadcast p f1 w c w' Hp Hrun) as [Heq|(m & Hm & Heq)].
    + left. by rewrite <- Heq.
    + rewrite Heq in Hin. apply elem_of_app in Hin as [?|Hin]; [by left|right].
      apply list_elem_of_singleton in Hin as ->.
      assert (m = m1) as -> by congruence. done.
Qed.

Lemma handleMessage_ignores_from_witness :
  handleMessage 1%nat (chat_frame "mallory") registered_world
  = handleMessage 1%nat (chat_frame "u1") registered_world ∧
  ∃ w', handleMessage 1%nat (chat_frame "mallory") registered_world = Done w' ∧
        Chan.buf (broadcast (hub w')) = [chat_msg "u1"].
Proof.
  destruct (handleMessage_ignores_from 1%nat registered_world
              (fresh_conn "conn_1" "u1" 2 0)
              (chat_frame "mallory") (chat_frame "u1")
              (chat_msg "mallory") (chat_msg "u1"))
    as (Hsame & _ & _).
  - vm_compute. reflexivity.
  - vm_compute. reflexivity.
  - vm_compute. reflexivity.
  - repeat split.
  - split; [exact Hsame|]. eexists. split; vm_compute; reflexivity.
Defined.

(** ** Chat frames *)

Lemma handleMessage_chat p f m w c :
  heap w !! p = Some c →
  MessageJson.Unmarshal f = Some m →
  Type_ m = "chat" →
  handleMessage p f w = handleChat p (with_From (UserID c) m) w.
Proof.
  intros Hp Hm Ht. unfold handleMessage, deref. rewrite Hm, Hp. simpl. rewrite Ht.
  done.
Qed.

Lemma submit_buf msg w w' :
  submit msg w = Done w' →
  Chan.buf (broadcast (hub w')) = Chan.buf (broadcast (hub w)) ++ [msg].
Proof.
  unfold submit, Chan.send. intros H. apply bind_Done in H as (ch & Hch & H).
  injection H as <-.
  destruct (Chan.closed (broadcast (hub w))), (Chan.full (broadcast (hub w)));
    try discriminate.
  by injection Hch as <-.
Qed.

(** C10. A chat frame whose payload is not a JSON object, or that names
    neither a user nor a group, is dropped by the handler: the call returns,
    and hub (with its dispatch queue and its job queue), connection objects
    (with their outbound queues) and clock are as before; only a warning is
    logged. And whatever a chat frame makes the handler put on the dispatch
    queue has a recipient, so that dispatching it leaves the hub as it is: no
    broadcast job is ever queued for it. *)
Theorem chat_frame_never_broadcasts p f m w c :
  heap w !! p = Some c →
  MessageJson.Unmarshal f = Some m →
  Type_ m = "chat" →
  (¬ is_object (Data m) ∨ (To m = "" ∧ Group m = "") →
   ∃ w', handleMessage p f w = Done w' ∧
         hub w' = hub w ∧ heap w' = heap w ∧ now w' = now w) ∧
  (∀ w' msg,
     handleMessage p f w = Done w' →
     msg ∈ Chan.buf (broadcast (hub w')) →
     msg ∈ Chan.buf (broadcast (hub w)) ∨
     (targeted msg ∧
      ∀ E v v', dispatch E msg v = Done v' →
                hub v' = hub v ∧ broadcastJobs (hub v') = broadcastJobs (hub v))).
Proof.
  intros Hp Hm Ht. rewrite (handleMessage_chat p f m w c Hp Hm Ht).
  unfold handleChat. simpl. split.
  - intros [Hobj|[HTo HGroup]].
    + destruct (Data m) as [| | | | |d| |] eqn:Hd;
        try (eexists; split; [done|]; done).
      destruct Hobj. by exists d.
    + rewrite HTo, HGroup. simpl.
      destruct (Data m); eexists; split; done.
  - intros w' msg Hrun Hin.
    assert (Chan.buf (broadcast (hub w')) = Chan.buf (broadcast (hub w)) ∨
            (targeted (with_From (UserID c) m) ∧
             Chan.buf (broadcast (hub w'))
             = Chan.buf (broadcast (hub w)) ++ [with_From (UserID c) m])) as [Heq|[Htgt Heq]].
    { destruct (Data m); try (injection Hrun as <-; by left).
      destruct (decide (To m = "")) as [HTo|HTo], (decide (Group m = "")) as [HG|HG].
      - rewrite !bool_decide_eq_true_2 in Hrun by done. injection Hrun as <-. by left.
      - rewrite (bool_decide_eq_false_2 (Group m = "")) in Hrun by done.
        rewrite andb_false_r in Hrun. apply submit_buf in Hrun.
        right. split; [by right|done].
      - rewrite (bool_decide_eq_false_2 (To m = "")) in Hrun by done.
        apply submit_buf in Hrun.
        right. split; [by left|done].
      - rewrite (bool_decide_eq_false_2 (To m = "")) in Hrun by done.
        apply submit_buf in Hrun.
        right. split; [by left|done]. }
    + left. by rewrite <- Heq.
    + rewrite Heq in Hin. apply elem_of_app in Hin as [?|Hin]; [by left|right].
      apply list_elem_of_singleton in Hin as ->. split; [done|].
      intros E v v' Hd. apply dispatch_targeted in Hd; [|done]. by rewrite Hd.
Qed.

Lemma chat_frame_never_broadcasts_witness :
  ∃ w', handleMessage 1%nat untargeted_chat_frame registered_world = Done w' ∧
        hub w' = hub registered_world ∧
        heap w' = heap registered_world ∧
        Chan.buf (broadcast (hub w')) = [].
Proof.
  destruct (chat_frame_never_broadcasts 1%nat untargeted_chat_frame untargeted_chat_msg
              registered_world (fresh_conn "conn_1" "u1" 2 0))
    as (Hdrop & _).
  - vm_compute. reflexivity.
  - vm_compute. reflexivity.
  - reflexivity.
  - destruct Hdrop as (w' & Hrun & Hhub & Hheap & _); [right; by split|].
    exists w'. split; [done|]. split; [done|]. split; [done|].
    rewrite Hhub. vm_compute. reflexivity.
Defined.

(** ** Routing *)

Lemma trySend_delivery E p payload onDrop s c :
  heap s !! p = Some c →
  Chan.closed (Send c) = false →
  observer onDrop →
  ∃ s', trySend E p payload onDrop s = Done s' ∧
        hub s' = hub s ∧
        heap s' = <[p := delivery (config (hub s)) (E p) payload c]> (heap s).
Proof.
  intros Hp Hopen Hobs.
  assert (∀ v, hub v = hub s → heap v = heap s →
            ∃ s', (if CloseOnBackpressure (config (hub (onDrop v)))
                   then Conn_Close p (onDrop v) else Done (onDrop v)) = Done s' ∧
                  hub s' = hub s ∧
                  heap s' = <[p := if CloseOnBackpressure (config (hub s))
                                   then with_Conn (mkConn true) c else c]> (heap s))
    as Hdropped.
  { intros v Hv1 Hv2. destruct (Hobs v) as (Hh & Hm & _). rewrite Hh, Hv1.
    destruct (CloseOnBackpressure (config (hub s))).
    - unfold Conn_Close, deref. rewrite Hm, Hv2, Hp. simpl.
      eexists. split; [done|]. simpl. by rewrite Hh, Hm, Hv1, Hv2.
    - exists (onDrop v). rewrite Hh, Hm, Hv1, Hv2. split; [done|]. split; [done|].
      symmetry. by apply insert_id. }
  unfold trySend, deref, delivery. rewrite Hp. cbn -[Z.mul].
  destruct (DropOnFull (config (hub s))) eqn:Hmode.
  - rewrite try_send_open by done. simpl.
    destruct (Chan.full (Send c)); [by apply Hdropped|]. eauto.
  - unfold Chan.send_within. rewrite Hopen.
    assert ((if SendTimeout (config (hub s)) <=? 0 then 50 * Millisecond
             else SendTimeout (config (hub s))) = send_deadline (config (hub s))) as ->
      by (unfold send_deadline; by rewrite Hmode).
    destruct (Chan.full (Send c)); [|simpl; eauto].
    destruct (E p) as [[d k]|]; simpl; [|by apply Hdropped].
    destruct ((0 <=? d) && (d <? send_deadline (config (hub s)))); simpl;
      [eauto|by apply Hdropped].
Qed.

Lemma routed_snoc w seen id q :
  routed w (seen ++ [id]) q
  = routed w seen q || bool_decide (connections (hub w) !! id = Some q).
Proof.
  unfold routed. rewrite omap_app. simpl.
  destruct (connections (hub w) !! id) as [p|] eqn:Hid; simpl.
  - destruct (decide (p = q)) as [->|Hne].
    + rewrite (bool_decide_eq_true_2 (Some q = Some q)) by done.
      rewrite orb_true_r. apply bool_decide_eq_true_2.
      apply elem_of_app. right. by left.
    + rewrite (bool_decide_eq_false_2 (Some p = Some q)) by congruence.
      rewrite orb_false_r. apply bool_decide_ext.
      rewrite elem_of_app, list_elem_of_singleton. split; [|by left].
      by intros [?|?].
  - by rewrite app_nil_r, orb_false_r.
Qed.

Lemma routed_elem w ids q :
  routed w ids q = true ↔ ∃ id, id ∈ ids ∧ connections (hub w) !! id = Some q.
Proof.
  unfold routed. rewrite bool_decide_eq_true, list_elem_of_omap. done.
Qed.

Lemma send_if_alive_delivered E payload entry w seen id s :
  registry_ok w →
  id ∉ seen →
  delivered E payload w seen s →
  ∃ s', send_if_alive E payload entry id s = Done s' ∧
        delivered E payload w (seen ++ [id]) s'.
Proof.
  intros Hreg Hnew (Hhub & Hheap). unfold send_if_alive. rewrite Hhub.
  destruct (connections (hub w) !! id) as [p|] eqn:Hid.
  - destruct (Hreg id p Hid) as (c & Hc & HID & Hopen).
    assert (routed w seen p = false) as Hfresh.
    { apply not_true_is_false. intros (id' & Hin & Hid')%routed_elem.
      destruct (Hreg id' p Hid') as (c' & Hc' & HID' & _).
      assert (c' = c) as -> by congruence. congruence. }
    pose proof (Hheap p) as Hp. rewrite Hc in Hp. simpl in Hp. rewrite Hfresh in Hp.
    simpl in Hp. unfold deref. rewrite Hp. simpl.
    destruct (IsAlive c) eqn:Halive.
    + destruct (trySend_delivery E p payload (logf (entry id)) s c Hp Hopen)
        as (s' & Hrun & Hh' & Hm'); [by intros v|].
      exists s'. split; [done|]. split; [congruence|].
      intros q. rewrite Hm', Hhub. destruct (decide (q = p)) as [->|Hne].
      * rewrite lookup_insert_eq, Hc. simpl.
        rewrite routed_snoc, Hid, bool_decide_eq_true_2 by done.
        by rewrite orb_true_r, Halive.
      * rewrite lookup_insert_ne by done. rewrite Hheap.
        rewrite routed_snoc, Hid, (bool_decide_eq_false_2 (Some p = Some q)) by congruence.
        by rewrite orb_false_r.
    + exists s. split; [done|]. split; [done|].
      intros q. rewrite Hheap. destruct (heap w !! q) as [cq|] eqn:Hq; [simpl|done].
      rewrite routed_snoc, Hid. destruct (decide (q = p)) as [->|Hne].
      * assert (cq = c) as -> by congruence. by rewrite Halive, !andb_false_r.
      * rewrite (bool_decide_eq_false_2 (Some p = Some q)) by congruence.
        by rewrite orb_false_r.
  - exists s. split; [done|]. split; [done|].
    intros q. rewrite Hheap. destruct (heap w !! q); [simpl|done].
    by rewrite routed_snoc, Hid, bool_decide_eq_false_2, orb_false_r.
Qed.

Lemma send_loop_delivered E payload entry w (l : list string) :
  ∀ seen s,
    registry_ok w →
    NoDup (seen ++ l) →
    delivered E payload w seen s →
    ∃ s', for_each (send_if_alive E payload entry) l s = Done s' ∧
          delivered E payload w (seen ++ l) s'.
Proof.
  induction l as [|id l IH]; intros seen s Hreg Hnd Hs.
  - exists s. split; [done|]. by rewrite app_nil_r.
  - apply NoDup_app in Hnd as Hparts. destruct Hparts as (_ & Hdisj & _).
    destruct (send_if_alive_delivered E payload entry w seen id s) as (s1 & H1 & Hs1);
      [done| |done|].
    { intros Hin. apply (Hdisj id Hin). by left. }
    destruct (IH (seen ++ [id]) s1) as (s' & Hs' & Hd); [done| |done|].
    { by rewrite <- (assoc_L (++)). }
    exists s'. rewrite for_each_cons, H1. split; [done|].
    by rewrite <- (assoc_L (++)) in Hd.
Qed.

Lemma delivered_start E payload w : delivered E payload w [] w.
Proof.
  split; [done|]. intros q. destruct (heap w !! q); [simpl|done]. done.
Qed.

(** Sending to the ids an index lists under a key: the loop of [sendToUser]
    and of [sendToGroup]. *)
Lemma send_index_delivered E payload entry w idx k :
  registry_ok w →
  ∃ w',
    match idx !! k with
    | Some conns => for_each (send_if_alive E payload entry) (range conns) w
    | None => Done w
    end = Done w' ∧
    hub w' = hub w ∧
    ∀ q c, heap w !! q = Some c →
      (reached w idx k q ∧ IsAlive c = true →
         heap w' !! q = Some (delivery (config (hub w)) (E q) payload c)) ∧
      (¬ (reached w idx k q ∧ IsAlive c = true) → heap w' !! q = Some c).
Proof.
  intros Hreg. destruct (idx !! k) as [conns|] eqn:Hk.
  - destruct (send_loop_delivered E payload entry w (range conns) [] w)
      as (w' & Hrun & Hhub & Hheap); [done|apply range_NoDup|apply delivered_start|].
    exists w'. split; [done|]. split; [done|].
    simpl in Hheap.
    assert (∀ q, routed w (range conns) q = true ↔ reached w idx k q) as Hrouted.
    { intros q. rewrite routed_elem. unfold reached, listed. split.
      - intros (id & Hin & Hid). exists id. split; [|done].
        exists conns. split; [done|]. by apply range_elem.
      - intros (id & (m & Hm & Hin) & Hid). exists id. split; [|done].
        apply range_elem. congruence. }
    intros q c Hc. rewrite Hheap, Hc. simpl. split.
    + intros [Hr ->]. apply Hrouted in Hr. by rewrite Hr.
    + intros Hnot. destruct (routed w (range conns) q) eqn:Hr; [|done].
      destruct (IsAlive c) eqn:Ha; [|done].
      destruct Hnot. split; [|done]. by apply Hrouted.
  - exists w. split; [done|]. split; [done|]. intros q c Hc. split; [|done].
    intros [(id & (m & Hm & _) & _) _]. congruence.
Qed.

(** The loop of [enqueueBroadcastAll] over the shard numbers [l]. *)
Lemma enqueue_loop payload (l : list Z) :
  ∀ s, Chan.closed (broadcastJobs (hub s)) = false →
    ∃ s',
      for_each
        (λ i w,
           r ← Chan.try_send (broadcastJobs (hub w)) (mkJob _broadcastAll i payload);
           match r with
           | Some ch => Done (with_hub (with_broadcastJobs ch (hub w)) w)
           | None => Done (logf LogBroadcastJobsFull w)
           end) l s = Done s' ∧
      heap s' = heap s ∧
      now s' = now s ∧
      hub s' = with_broadcastJobs
                 (Chan.Make
                    (Chan.buf (broadcastJobs (hub s)) ++
                     ((λ i, mkJob _broadcastAll i payload)
                        <$> take (Z.to_nat (Chan.cap (broadcastJobs (hub s))
                                            - Z.of_nat (length (Chan.buf (broadcastJobs (hub s))))))
                                 l))
                    (Chan.cap (broadcastJobs (hub s))) false)
                 (hub s).
Proof.
  induction l as [|i l IH]; intros s Hopen.
  - exists s. split; [done|]. split; [done|]. split; [done|].
    rewrite take_nil. simpl. rewrite app_nil_r.
    destruct s as [h ? ? ?]. destruct h. simpl in *.
    destruct broadcastJobs0. simpl in *. by subst.
  - rewrite for_each_cons. rewrite try_send_open by done. cbn [mbind outcome_bind].
    unfold Chan.full. destruct (Z.leb_spec (Chan.cap (broadcastJobs (hub s)))
                                  (Z.of_nat (length (Chan.buf (broadcastJobs (hub s))))))
      as [Hfull|Hroom].
    + destruct (IH (logf LogBroadcastJobsFull s)) as (s' & Hrun & Hh & Hn & Hhub); [done|].
      exists s'. split; [done|]. split; [done|]. split; [done|].
      rewrite Hhub. simpl.
      replace (Z.to_nat _) with 0%nat by lia. done.
    + destruct (IH (with_hub (with_broadcastJobs
                      (Chan.push (broadcastJobs (hub s))
                         (mkJob _broadcastAll i payload)) (hub s)) s))
        as (s' & Hrun & Hh & Hn & Hhub); [done|].
      exists s'. split; [done|]. split; [done|]. split; [done|].
      rewrite Hhub. simpl. rewrite length_app. simpl.
      replace (Z.to_nat (Chan.cap (broadcastJobs (hub s))
                         - Z.of_nat (length (Chan.buf (broadcastJobs (hub s))))))
        with (S (Z.to_nat (Chan.cap (broadcastJobs (hub s))
                           - Z.of_nat (length (Chan.buf (broadcastJobs (hub s))) + 1))))
        by lia.
      simpl. by rewrite <- (assoc_L (++)).
Qed.


Lemma registry_okb_spec w : registry_okb w = true → registry_ok w.
Proof.
  unfold registry_okb, registry_ok. rewrite forallb_forall. intros H id q Hid.
  assert (In (id, q) (map_to_list (connections (hub w)))) as HIn
    by (apply list_elem_of_In; by apply elem_of_map_to_list).
  specialize (H (id, q) HIn). simpl in H.
  destruct (heap w !! q) as [c|]; [|done].
  exists c. split; [done|]. apply andb_true_iff in H as [H1 H2].
  apply bool_decide_eq_true in H1. by apply negb_true_iff in H2.
Qed.

Lemma listedb_spec idx k id : listedb idx k id = true ↔ listed idx k id.
Proof.
  unfold listedb, listed. destruct (idx !! k) as [m|].
  - rewrite bool_decide_eq_true. split; [eauto|]. by intros (? & [= <-] & ?).
  - split; [done|]. by intros (? & ? & ?).
Qed.

Lemma user_index_okb_spec w : user_index_okb w = true → user_index_ok w.
Proof.
  unfold user_index_okb, user_index_ok. rewrite forallb_forall.
  intros H id q c u Hid Hc.
  assert (In (id, q) (map_to_list (connections (hub w)))) as HIn
    by (apply list_elem_of_In; by apply elem_of_map_to_list).
  specialize (H (id, q) HIn). simpl in H. rewrite Hc in H.
  apply andb_true_iff in H as [H1 H2]. split.
  - intros (m & Hm & Hin). rewrite forallb_forall in H2.
    assert (In (u, m) (map_to_list (userConnections (hub w)))) as HIn'
      by (apply list_elem_of_In; by apply elem_of_map_to_list).
    specialize (H2 (u, m) HIn'). simpl in H2.
    apply orb_true_iff in H2 as [H2|H2].
    + by apply negb_true_iff, bool_decide_eq_false in H2.
    + apply andb_true_iff in H2 as [Hu Hne].
      apply bool_decide_eq_true in Hu. by apply negb_true_iff, bool_decide_eq_false in Hne.
  - intros [<- Hne]. apply orb_true_iff in H1 as [H1|H1].
    + by apply bool_decide_eq_true in H1.
    + by apply listedb_spec.
Qed.



(** ** The wire format *)

Lemma coerce_go_valid fuel l :
  Utf8.valid_go fuel l = true → Utf8.coerce_go fuel l = l.
Proof.
  revert l. induction fuel as [|fuel IH]; intros l H.
  - by destruct l.
  - destruct l as [|a l]; [done|]. cbn [Utf8.valid_go Utf8.coerce_go] in *.
    destruct (Utf8.width (a :: l)) as [|n] eqn:Hw; [done|].
    rewrite (IH _ H). apply take_drop.
Qed.

Lemma coerce_valid s : Utf8.ValidString s = true → Utf8.coerce s = s.
Proof.
  unfold Utf8.ValidString, Utf8.coerce. intros H.
  rewrite (coerce_go_valid _ _ H). apply string_of_list_ascii_of_string.
Qed.

Lemma any_size_slice x (l : list any) : x ∈ l → (any_size x < any_size (ASlice l))%nat.
Proof.
  simpl. induction l as [|y l IH]; [by intros ?%elem_of_nil|].
  intros [->|Hin]%elem_of_cons; simpl; [lia|]. specialize (IH Hin). lia.
Qed.

Lemma any_size_map k v (m : gmap string any) :
  m !! k = Some v → (any_size v < any_size (AMap m))%nat.
Proof.
  intros Hk. simpl. rewrite <- (insert_delete_id m k v Hk).
  rewrite map_fold_insert_L.
  - lia.
  - intros. lia.
  - apply lookup_delete_eq.
Qed.

(** Encoding and decoding the elements of a slice. *)
Lemma encode_decode_list (l : list any) :
  Forall (λ x, ∃ j, Json.encode x = Some j ∧ Json.decode j = x) l →
  ∃ js, mapM id (Json.encode <$> l) = Some js ∧ Json.decode <$> js = l.
Proof.
  induction 1 as [|x l (j & Hj & Hd) _ (js & Hjs & Hds)].
  - by exists [].
  - exists (j :: js). apply mapM_Some in Hjs. split.
    + apply mapM_Some. rewrite fmap_cons. by constructor.
    + by rewrite fmap_cons, Hd, Hds.
Qed.

(** Encoding and decoding the members of a map. *)
Lemma encode_decode_members (m : gmap string any) :
  (∀ k v, m !! k = Some v →
     Utf8.coerce k = k ∧ ∃ j, Json.encode v = Some j ∧ Json.decode j = v) →
  ∃ l, Json.members (Json.encode <$> m) = Some l ∧
       Json.object_map (prod_map id Json.decode <$> l) = m.
Proof.
  intros Hm. unfold Json.members.
  set (L := merge_sort Json.key_le (map_to_list (Json.encode <$> m))).
  assert (L ≡ₚ map_to_list (Json.encode <$> m)) as HL by apply merge_sort_Permutation.
  set (h := λ kv : string * option json, (kv.1, default ANil (Json.decode <$> kv.2))).
  assert (∀ kv, kv ∈ L →
            ∃ v j, m !! kv.1 = Some v ∧ kv.2 = Some j ∧ Json.decode j = v ∧
                   Utf8.coerce kv.1 = kv.1) as Hall.
  { intros [k o] Hin. rewrite HL in Hin. apply elem_of_map_to_list in Hin.
    apply lookup_fmap_Some in Hin as (v & <- & Hv).
    destruct (Hm k v Hv) as (Hk & j & Hj & Hd). exists v, j. done. }
  assert (∃ l, mapM (λ kv : string * option json, v ← kv.2; Some (Utf8.coerce kv.1, v)) L
               = Some l ∧ prod_map id Json.decode <$> l = h <$> L) as (l & Hl & Hdec).
  { clear HL. induction L as [|[k o] L IH]; [by exists []|].
    destruct (Hall (k, o)) as (v & j & Hv & Ho & Hd & Hk); [by left|].
    simpl in Hv, Ho, Hk.
    destruct IH as (l & Hl & Hdec); [intros kv Hkv; apply Hall; by right|].
    exists ((k, j) :: l). apply mapM_Some in Hl. split.
    - apply mapM_Some. constructor; [|done]. simpl. by rewrite Ho, Hk.
    - rewrite !fmap_cons, Hdec. unfold h at 2. simpl. by rewrite Ho. }
  exists l. split; [done|]. rewrite Hdec. unfold Json.object_map.
  assert (NoDup (reverse (h <$> L)).*1) as Hnd.
  { rewrite fmap_reverse, reverse_Permutation, <- list_fmap_compose.
    assert ((fst ∘ h) <$> L = L.*1) as -> by (by apply list_fmap_ext).
    rewrite HL. apply NoDup_fst_map_to_list. }
  apply map_eq. intros k. apply option_eq. intros v.
  rewrite <- (elem_of_list_to_map _ _ _ Hnd), elem_of_reverse, list_elem_of_fmap.
  split.
  - intros ([k' o] & [= -> ->] & Hin). simpl.
    destruct (Hall (k', o) Hin) as (v & j & Hv & Ho & Hd & _). simpl in Hv, Ho.
    subst o. simpl. by rewrite Hd.
  - intros Hv. destruct (Hm k v Hv) as (_ & j & Hj & Hd).
    exists (k, Some j). split; [unfold h; simpl; by rewrite Hd|].
    rewrite HL. apply elem_of_map_to_list. by rewrite lookup_fmap, Hv, <- Hj.
Qed.

(** A plain value is encoded, and decoding gives it back. *)
Lemma encode_decode a :
  plain a → ∃ j, Json.encode a = Some j ∧ Json.decode j = a.
Proof.
  remember (any_size a) as n eqn:Hn. revert a Hn.
  induction n as [n IH] using lt_wf_ind. intros a -> Hplain.
  destruct Hplain as [|b|x|s Hs|l Hl|m Hm]; simpl.
  - by exists JNull.
  - by exists (JBool b).
  - by exists (JNumber x).
  - exists (JString s). by rewrite (coerce_valid s Hs).
  - destruct (encode_decode_list l) as (js & Hjs & Hd).
    { apply Forall_forall. intros x Hx. apply (IH (any_size x)); [|done|].
      - by apply any_size_slice.
      - by eapply Forall_forall in Hl. }
    exists (JArray js). rewrite Hjs. simpl. by rewrite Hd.
  - destruct (encode_decode_members m) as (l & Hl & Hd).
    { intros k v Hv. destruct (Hm k v Hv) as [Hk Hp]. split; [by apply coerce_valid|].
      apply (IH (any_size v)); [|done|done]. by eapply any_size_map. }
    exists (JObject l). rewrite Hl. simpl. by rewrite Hd.
Qed.

Lemma field_of_key_names :
  MessageJson.field_of_key "type" = Some MessageJson.FType ∧
  MessageJson.field_of_key "data" = Some MessageJson.FData ∧
  MessageJson.field_of_key "timestamp" = Some MessageJson.FTimestamp ∧
  MessageJson.field_of_key "from" = Some MessageJson.FFrom ∧
  MessageJson.field_of_key "to" = Some MessageJson.FTo ∧
  MessageJson.field_of_key "group" = Some MessageJson.FGroup.
Proof. repeat split; vm_compute; reflexivity. Qed.

Lemma is_int64_true z : int64 z → is_int64 z = true.
Proof.
  unfold int64, is_int64. intros [H1 H2].
  apply andb_true_iff. split; [by apply Z.leb_le|by apply Z.ltb_lt].
Qed.

(** Decoding the optional members the encoder has written. *)
Lemma Unmarshal_optional (a : Message) (f t g : string) :
  Utf8.ValidString f = true → Utf8.ValidString t = true → Utf8.ValidString g = true →
  foldl MessageJson.set_member (Some a)
    (MessageJson.omitempty "from" f ++ MessageJson.omitempty "to" t
     ++ MessageJson.omitempty "group" g)
  = Some (mkMessage (Type_ a) (Data a) (Timestamp a)
            (if decide (f = "") then From a else f)
            (if decide (t = "") then To a else t)
            (if decide (g = "") then Group a else g)).
Proof.
  intros Hf Ht Hg. destruct field_of_key_names as (_ & _ & _ & Kf & Kt & Kg).
  unfold MessageJson.omitempty.
  rewrite (coerce_valid f Hf), (coerce_valid t Ht), (coerce_valid g Hg).
  destruct a. destruct (decide (f = "")), (decide (t = "")), (decide (g = ""));
    simpl; unfold MessageJson.set_member; simpl; rewrite ?Kf, ?Kt, ?Kg; simpl;
    rewrite ?Kf, ?Kt, ?Kg; simpl; rewrite ?Kf, ?Kt, ?Kg; done.
Qed.

(** C8, as the code has it. A message whose payload is of the kinds the
    decoder produces, whose strings are valid UTF-8 and whose timestamp is an
    int64 is encoded, and decoding the encoding gives the message back,
    whether its optional fields are set or empty; an optional field that is
    empty is left out of the encoding, and comes back empty. *)
Theorem Message_roundtrip m :
  wire_safe m →
  ∃ j, MessageJson.Marshal m = Some j ∧
       MessageJson.Unmarshal j = Some m ∧
       (From m = "" → ¬ has_member "from" j) ∧
       (To m = "" → ¬ has_member "to" j) ∧
       (Group m = "" → ¬ has_member "group" j).
Proof.
  intros (HT & HF & HTo & HG & Hts & Hplain).
  destruct (encode_decode (Data m) Hplain) as (d & Hd & Hdd).
  unfold MessageJson.Marshal. rewrite Hd. simpl. eexists. split; [done|]. split.
  - unfold MessageJson.Unmarshal.
    rewrite (coerce_valid _ HT).
    change (foldl MessageJson.set_member (Some Message_zero)
              ([("type", JString (Type_ m)); ("data", d);
                ("timestamp", JNumber (NumInt (Timestamp m)))]
               ++ (MessageJson.omitempty "from" (From m)
                   ++ MessageJson.omitempty "to" (To m)
                   ++ MessageJson.omitempty "group" (Group m))) = Some m).
    rewrite foldl_app. simpl. rewrite (is_int64_true _ Hts).
    rewrite Unmarshal_optional by done. simpl. rewrite Hdd.
    destruct m as [ty da ts fr to gr]. simpl.
    destruct (decide (fr = "")), (decide (to = "")), (decide (gr = "")); by subst.
  - unfold MessageJson.omitempty, has_member.
    repeat split; intros He; rewrite He; simpl;
      destruct (decide (From m = "")), (decide (To m = "")), (decide (Group m = ""));
      simpl; rewrite ?elem_of_cons, ?elem_of_nil; intros H;
      repeat (destruct H as [H|H]; try discriminate H); done.
Qed.

Lemma Message_roundtrip_witness :
  ∃ j, MessageJson.Marshal test_message = Some j ∧
       MessageJson.Unmarshal j = Some test_message.
Proof.
  destruct (Message_roundtrip test_message) as (j & Hj & Hm & _).
  - repeat split; try (vm_compute; reflexivity); try (vm_compute; discriminate).
    apply plain_string. vm_compute. reflexivity.
  - by exists j.
Defined.

(** The claim as stated fails for a payload that is not of a kind the
    decoder produces: with all optional fields set, a Go [int] comes back as
    a [float64], and the decoded message differs from the original. *)
Lemma Message_roundtrip_changes_int :
  From int_message ≠ "" ∧ To int_message ≠ "" ∧ Group int_message ≠ "" ∧
  ∃ j m',
    MessageJson.Marshal int_message = Some j ∧
    MessageJson.Unmarshal j = Some m' ∧
    Data m' = AFloat64 (NumInt 1) ∧
    m' ≠ int_message.
Proof.
  repeat split; try discriminate.
  eexists _, _. split; [vm_compute; reflexivity|].
  split; [vm_compute; reflexivity|]. split; [reflexivity|]. discriminate.
Qed.
